(** * PAN Encryption & Tokenization Service: a shallow embedding of [main.py]

    Python values are modelled as follows.
    - [str] is a list of Unicode code points ([Z], what [ord] returns);
      [len] counts code points, as Python does.
    - [bytes] is a list of octets, each a [Z] in [0, 256).
    - Exceptions are the constructors of [exn]; a computation that may
      raise returns a [result].
    - The module-level globals ([MASTER_KEY], [ADMIN_API_KEY]), the
      operating system's random source and the clock are the fields of
      [Env]; what a request can change (the SQLite table, how much of the
      random source and of the clock has been consumed) is a [World].
    - The [tokens] table, whose primary key is [token], is a finite map
      from tokens to rows. *)

From Stdlib Require Import ZArith List String Ascii Lia Bool.
From stdpp Require Import base option list gmap.

Local Open Scope Z_scope.

Abbreviation str := (list Z).
Abbreviation bytes := (list Z).

(** ** Exceptions and results *)

Inductive exn : Type :=
| HTTPException (status_code : Z) (detail : string)
| RequestValidationError
| IntegrityError
| InvalidTag
| ValueError (msg : string)
| UnicodeEncodeError
| UnicodeDecodeError
| BinasciiError (msg : string)
| OverflowError
| SystemExit (msg : string).

(** [except Exception] catches everything but [SystemExit], which derives
    from [BaseException] only. *)
Definition is_Exception (e : exn) : bool :=
  match e with
  | SystemExit _ => false
  | _ => true
  end.

(** What the client of the HTTP layer sees: an [HTTPException] carries its
    own status, a request that fails model validation is answered 422, and
    any other exception leaving a handler is answered 500. *)
Definition http_status (e : exn) : Z :=
  match e with
  | HTTPException status_code _ => status_code
  | RequestValidationError => 422
  | _ => 500
  end.

Inductive result (A : Type) : Type :=
| Ok (a : A)
| Raise (e : exn).
Arguments Ok {A} a.
Arguments Raise {A} e.

Definition result_bind {A B} (r : result A) (k : A -> result B) : result B :=
  match r with
  | Ok a => k a
  | Raise e => Raise e
  end.

Definition result_map {A B} (f : A -> B) (r : result A) : result B :=
  result_bind r (fun a => Ok (f a)).

Definition len {A} (s : list A) : Z := Z.of_nat (length s).

Definition in_range (lo hi x : Z) : bool := (lo <=? x) && (x <=? hi).

(** ** [str.encode("utf-8")] and [bytes.decode("utf-8")] *)

Definition is_surrogate (c : Z) : bool := in_range 0xD800 0xDFFF c.

Definition is_scalar_value (c : Z) : bool :=
  in_range 0 0x10FFFF c && negb (is_surrogate c).

Definition utf8_encode_char (c : Z) : result bytes :=
  if in_range 0 0x7F c then Ok [c]
  else if in_range 0x80 0x7FF c then
    Ok [0xC0 + c / 64; 0x80 + c mod 64]
  else if in_range 0x800 0xFFFF c then
    if is_surrogate c then Raise UnicodeEncodeError
    else Ok [0xE0 + c / 4096; 0x80 + (c / 64) mod 64; 0x80 + c mod 64]
  else if in_range 0x10000 0x10FFFF c then
    Ok [0xF0 + c / 262144; 0x80 + (c / 4096) mod 64;
        0x80 + (c / 64) mod 64; 0x80 + c mod 64]
  else Raise UnicodeEncodeError.

Fixpoint utf8_encode (s : str) : result bytes :=
  match s with
  | [] => Ok []
  | c :: s' =>
      result_bind (utf8_encode_char c) (fun bs =>
      result_bind (utf8_encode s') (fun rest => Ok (bs ++ rest)))
  end.

Definition is_continuation (b : Z) : bool := in_range 0x80 0xBF b.

Fixpoint utf8_decode (bs : bytes) : result str :=
  match bs with
  | [] => Ok []
  | b0 :: r0 =>
      if in_range 0 0x7F b0 then result_map (cons b0) (utf8_decode r0)
      else if in_range 0xC2 0xDF b0 then
        match r0 with
        | b1 :: r1 =>
            if is_continuation b1 then
              result_map (cons ((b0 - 0xC0) * 64 + (b1 - 0x80))) (utf8_decode r1)
            else Raise UnicodeDecodeError
        | _ => Raise UnicodeDecodeError
        end
      else if in_range 0xE0 0xEF b0 then
        match r0 with
        | b1 :: b2 :: r2 =>
            let c := (b0 - 0xE0) * 4096 + (b1 - 0x80) * 64 + (b2 - 0x80) in
            if is_continuation b1 && is_continuation b2
               && in_range 0x800 0xFFFF c && negb (is_surrogate c)
            then result_map (cons c) (utf8_decode r2)
            else Raise UnicodeDecodeError
        | _ => Raise UnicodeDecodeError
        end
      else if in_range 0xF0 0xF4 b0 then
        match r0 with
        | b1 :: b2 :: b3 :: r3 =>
            let c := (b0 - 0xF0) * 262144 + (b1 - 0x80) * 4096
                     + (b2 - 0x80) * 64 + (b3 - 0x80) in
            if is_continuation b1 && is_continuation b2 && is_continuation b3
               && in_range 0x10000 0x10FFFF c
            then result_map (cons c) (utf8_decode r3)
            else Raise UnicodeDecodeError
        | _ => Raise UnicodeDecodeError
        end
      else Raise UnicodeDecodeError
  end.

(** A [str] that [encode("utf-8")] accepts: no lone surrogate. The
    [sqlite3] module encodes every [str] parameter it binds, and a
    length-constrained field of a request model reads its value as text; both
    refuse a string that is not encodable. *)
Definition encodable (s : str) : bool := forallb is_scalar_value s.

Definition is_byte (b : Z) : bool := in_range 0 255 b.

(** ** [str.isdigit] *)

(** The characters with the Unicode property Numeric_Type=Decimal or
    Numeric_Type=Digit, as inclusive ranges of code points (Unicode 14.0, the
    database of CPython 3.11): the ASCII digits, the superscripts two, three
    and one, the digits of the other scripts, the circled and dingbat
    digits. *)
Definition digit_ranges : list (Z * Z) :=
  [(48, 57); (178, 179); (185, 185); (1632, 1641); (1776, 1785);
   (1984, 1993); (2406, 2415); (2534, 2543); (2662, 2671); (2790, 2799);
   (2918, 2927); (3046, 3055); (3174, 3183); (3302, 3311); (3430, 3439);
   (3558, 3567); (3664, 3673); (3792, 3801); (3872, 3881); (4160, 4169);
   (4240, 4249); (4969, 4977); (6112, 6121); (6160, 6169); (6470, 6479);
   (6608, 6618); (6784, 6793); (6800, 6809); (6992, 7001); (7088, 7097);
   (7232, 7241); (7248, 7257); (8304, 8304); (8308, 8313); (8320, 8329);
   (9312, 9320); (9332, 9340); (9352, 9360); (9450, 9450); (9461, 9469);
   (9471, 9471); (10102, 10110); (10112, 10120); (10122, 10130);
   (42528, 42537); (43216, 43225); (43264, 43273); (43472, 43481);
   (43504, 43513); (43600, 43609); (44016, 44025); (65296, 65305);
   (66720, 66729); (68160, 68163); (68912, 68921); (69216, 69224);
   (69714, 69722); (69734, 69743); (69872, 69881); (69942, 69951);
   (70096, 70105); (70384, 70393); (70736, 70745); (70864, 70873);
   (71248, 71257); (71360, 71369); (71472, 71481); (71904, 71913);
   (72016, 72025); (72784, 72793); (73040, 73049); (73120, 73129);
   (92768, 92777); (92864, 92873); (93008, 93017); (120782, 120831);
   (123200, 123209); (123632, 123641); (125264, 125273); (127232, 127242);
   (130032, 130041)].

Definition Py_UNICODE_ISDIGIT (c : Z) : bool :=
  existsb (fun r => in_range (fst r) (snd r) c) digit_ranges.

(** [s.isdigit()]: at least one character, and every character a digit. *)
Definition isdigit (s : str) : bool :=
  match s with
  | [] => false
  | _ => forallb Py_UNICODE_ISDIGIT s
  end.

(** ** [binascii.unhexlify] on a [str] argument *)

Definition hex_digit_value (c : Z) : option Z :=
  if in_range 48 57 c then Some (c - 48)
  else if in_range 97 102 c then Some (c - 87)
  else if in_range 65 70 c then Some (c - 55)
  else None.

Fixpoint unhexlify_pairs (s : str) : result bytes :=
  match s with
  | [] => Ok []
  | hi :: lo :: s' =>
      match hex_digit_value hi, hex_digit_value lo with
      | Some h, Some l =>
          result_map (cons (16 * h + l)) (unhexlify_pairs s')
      | _, _ => Raise (BinasciiError "Non-hexadecimal digit found")
      end
  | [_] => Raise (BinasciiError "Odd-length string")
  end.

Definition unhexlify (s : str) : result bytes :=
  if negb (forallb (in_range 0 0x7F) s) then
    Raise (ValueError "string argument should contain only ASCII characters")
  else if Nat.odd (length s) then Raise (BinasciiError "Odd-length string")
  else unhexlify_pairs s.

(** ** [secrets.token_urlsafe]: base64 over the URL-safe alphabet, padding
    stripped *)

Definition b64_char (i : Z) : Z :=
  if i <? 26 then 65 + i
  else if i <? 52 then 97 + (i - 26)
  else if i <? 62 then 48 + (i - 52)
  else if i =? 62 then 45
  else 95.

Fixpoint urlsafe_b64encode_nopad (bs : bytes) : str :=
  match bs with
  | [] => []
  | [a] => [b64_char (a / 4); b64_char ((a mod 4) * 16)]
  | [a; b] =>
      [b64_char (a / 4); b64_char ((a mod 4) * 16 + b / 16);
       b64_char ((b mod 16) * 4)]
  | a :: b :: c :: rest =>
      b64_char (a / 4) :: b64_char ((a mod 4) * 16 + b / 16)
        :: b64_char ((b mod 16) * 4 + c / 64) :: b64_char (c mod 64)
        :: urlsafe_b64encode_nopad rest
  end.

(** ** Loading the environment (module top level, lines 26-39) *)

Definition exn_str (e : exn) : string :=
  match e with
  | HTTPException _ detail => detail
  | ValueError msg | BinasciiError msg | SystemExit msg => msg
  | _ => ""
  end.

Definition valid_key_length (key : bytes) : bool :=
  let n := len key in (n =? 16) || (n =? 24) || (n =? 32).

(** [MASTER_KEY_HEX] is what [os.getenv] returned: [None] when the variable
    is not set. On success the result is the module global [MASTER_KEY]. *)
Definition load_master_key (MASTER_KEY_HEX : option str) : result bytes :=
  match MASTER_KEY_HEX with
  | None | Some [] => Raise (SystemExit "MASTER_KEY_HEX must be set in .env")
  | Some hex =>
      match unhexlify hex with
      | Raise e =>
          if is_Exception e then
            Raise (SystemExit
                     ("Invalid MASTER_KEY_HEX (must be hex). Error: " ++ exn_str e))
          else Raise e
      | Ok MASTER_KEY =>
          if negb (valid_key_length MASTER_KEY) then
            Raise (SystemExit "MASTER_KEY must be 16, 24, or 32 bytes for AES-GCM")
          else Ok MASTER_KEY
      end
  end.

(** ** The [cryptography] library's AES-GCM *)

(** The cipher itself is a collaborator: [aes_encrypt key nonce data aad] and
    [aes_decrypt key nonce data aad] are the methods of an [AESGCM] object
    built on [key]; [aes_decrypt] raises (returns [Raise]) when the tag does
    not verify. *)
Class AEAD : Type := {
  aes_encrypt : bytes -> bytes -> bytes -> option bytes -> result bytes;
  aes_decrypt : bytes -> bytes -> bytes -> option bytes -> result bytes
}.

(** The constructor [AESGCM(key)] checks the key size itself. *)
Definition AESGCM (key : bytes) : result bytes :=
  if valid_key_length key then Ok key
  else Raise (ValueError "AESGCM key must be 128, 192, or 256 bits.").

(** What the library promises: under a key of a valid size and a 12-byte
    nonce, encryption succeeds and decryption inverts it. *)
Definition AEAD_correct (A : AEAD) : Prop :=
  forall key nonce data,
    valid_key_length key = true -> length nonce = 12%nat ->
    exists ct, aes_encrypt key nonce data None = Ok ct
               /\ aes_decrypt key nonce ct None = Ok data.

(** ** Models (pydantic) and table rows *)

Module EncryptRequest.
Record t := { pan : str }.
(** [Field(..., min_length=12, max_length=19)]: the constrained field reads
    the value as text, which refuses a lone surrogate, and then checks its
    length. *)
Definition validate (pan : str) : result t :=
  if encodable pan && in_range 12 19 (len pan) then Ok {| pan := pan |}
  else Raise RequestValidationError.
End EncryptRequest.

Module EncryptResponse.
Record t := { token : str; masked_pan : str }.
End EncryptResponse.

Module DecryptRequest.
Record t := { token : str }.
End DecryptRequest.

Module DecryptResponse.
Record t := { pan : str; masked_pan : str }.
End DecryptResponse.

Module TokenMetadata.
Record t := { token : str; masked_pan : str; created_at : str }.
End TokenMetadata.

Module Row.
Record t := {
  token : str;
  ciphertext : bytes;
  nonce : bytes;
  pan_length : Z;
  first6 : str;
  last4 : str;
  created_at : str
}.
End Row.

(** ** The world a request runs in *)

(** [db] is the [tokens] table; [urandom_pos] and [clock_pos] count how many
    bytes of the random source and how many readings of the clock have been
    consumed so far. *)
Record World := {
  db : gmap (list Z) Row.t;
  urandom_pos : nat;
  clock_pos : nat
}.

(** A statement runs in a world and leaves a world, whether it returns or
    raises: an exception does not undo the effects that preceded it. *)
Definition M (A : Type) : Type := World -> result A * World.

Definition ret {A} (a : A) : M A := fun w => (Ok a, w).
Definition raise {A} (e : exn) : M A := fun w => (Raise e, w).
Definition lift {A} (r : result A) : M A := fun w => (r, w).

Definition bind {A B} (m : M A) (k : A -> M B) : M B :=
  fun w =>
    match m w with
    | (Ok a, w') => k a w'
    | (Raise e, w') => (Raise e, w')
    end.

Notation "x <- m ;; k" := (bind m (fun x => k))
  (at level 20, m at level 99, k at level 200, only parsing).
Notation "' pat <- m ;; k" := (bind m (fun x => match x with pat => k end))
  (at level 20, pat pattern, m at level 99, k at level 200, only parsing).

(** [try: body except Exception: handler] *)
Definition try_except {A} (body : M A) (handler : exn -> M A) : M A :=
  fun w =>
    match body w with
    | (Raise e, w') => if is_Exception e then handler e w' else (Raise e, w')
    | r => r
    end.

Definition star : Z := 42.

(** ** PAN masking (lines 113-115) *)

(** ["*" * middle] is the empty string for a negative count, but a count
    below the least machine index, [-2^63], cannot be converted and raises.
    The model puts no bound on the size of a string, so a count too large for
    the interpreter to allocate is not told apart: the string is returned. *)
Definition mask_pan (first6 last4 : str) (length : Z) : result str :=
  let middle := length - len first6 - len last4 in
  if middle <? - 2 ^ 63 then Raise OverflowError
  else Ok (first6 ++ repeat star (Z.to_nat middle) ++ last4).

(** What the module runs against: the two configuration globals, the
    octets of the system's random source ([os.urandom] returns [bytes], so
    each is below 256) and the successive readings of
    [datetime.utcnow().isoformat()]. *)
Class Env : Type := {
  MASTER_KEY : bytes;
  ADMIN_API_KEY : str;
  urandom : nat -> Z;
  urandom_octet : forall i, is_byte (urandom i) = true;
  utcnow_isoformat : nat -> str
}.

Section Service.

Context {aead : AEAD} {env : Env}.

(** *** [secrets] and the clock *)

Definition token_bytes (n : nat) : M bytes :=
  fun w =>
    (Ok (map urandom (seq (urandom_pos w) n)),
     {| db := db w; urandom_pos := (urandom_pos w + n)%nat;
        clock_pos := clock_pos w |}).

Definition token_urlsafe (n : nat) : M str :=
  tok <- token_bytes n ;; ret (urlsafe_b64encode_nopad tok).

Definition utcnow : M str :=
  fun w =>
    (Ok (utcnow_isoformat (clock_pos w)),
     {| db := db w; urandom_pos := urandom_pos w;
        clock_pos := S (clock_pos w) |}).

(** *** Crypto helpers (lines 100-109) *)

Definition encrypt_pan_bytes (pan_bytes : bytes) : M (bytes * bytes) :=
  aes <- lift (AESGCM MASTER_KEY) ;;
  nonce <- token_bytes 12 ;;
  ciphertext <- lift (aes_encrypt aes nonce pan_bytes None) ;;
  ret (nonce, ciphertext).

Definition decrypt_pan_bytes (nonce ciphertext : bytes) : M bytes :=
  aes <- lift (AESGCM MASTER_KEY) ;;
  lift (aes_decrypt aes nonce ciphertext None).

(** *** Database helpers (lines 119-153) *)

(** What [cur.execute] does with a parameter before the statement runs: a
    [str] is encoded as UTF-8, an [int] must fit SQLite's 64-bit INTEGER. *)
Definition bind_text (s : str) : M unit :=
  if encodable s then ret tt else raise UnicodeEncodeError.

Definition bind_int (n : Z) : M unit :=
  if in_range (- 2 ^ 63) (2 ^ 63 - 1) n then ret tt else raise OverflowError.

(** The arguments of [cur.execute], the clock reading among them, are
    evaluated first; the parameters are then bound in order, and the first
    one that cannot be bound raises (the two blobs always can, and so can
    the clock reading, which [isoformat] writes in ASCII); [token] is the
    primary key, so the INSERT raises when the token is already there. *)
Definition save_token (token : str) (nonce ciphertext : bytes)
    (pan_length : Z) (first6 last4 : str) : M unit :=
  now <- utcnow ;;
  _ <- bind_text token ;;
  _ <- bind_int pan_length ;;
  _ <- bind_text first6 ;;
  _ <- bind_text last4 ;;
  fun w =>
    match db w !! token with
    | Some _ => (Raise IntegrityError, w)
    | None =>
        (Ok tt,
         {| db := <[token := {| Row.token := token;
                                Row.ciphertext := ciphertext;
                                Row.nonce := nonce;
                                Row.pan_length := pan_length;
                                Row.first6 := first6;
                                Row.last4 := last4;
                                Row.created_at := now |}]> (db w);
            urandom_pos := urandom_pos w;
            clock_pos := clock_pos w |})
    end.

Definition get_token_record (token : str) : M (option Row.t) :=
  _ <- bind_text token ;;
  fun w => (Ok (db w !! token), w).

(** *** Admin auth (lines 157-160) *)

Definition require_admin (api_key : option str) : M bool :=
  if decide (api_key = Some ADMIN_API_KEY) then ret true
  else raise (HTTPException 401 "Invalid admin API key.").

(** *** Endpoints (lines 164-213) *)

Definition encrypt (req : EncryptRequest.t) : M EncryptResponse.t :=
  let pan := EncryptRequest.pan req in
  if negb (isdigit pan) then
    raise (HTTPException 400 "PAN must contain only digits")
  else
    pan_bytes <- lift (utf8_encode pan) ;;
    '(nonce, ciphertext) <- encrypt_pan_bytes pan_bytes ;;
    token <- token_urlsafe 24 ;;
    let first6 := firstn 6 pan in
    let last4 := skipn (length pan - 4) pan in
    let pan_length := len pan in
    _ <- save_token token nonce ciphertext pan_length first6 last4 ;;
    masked <- lift (mask_pan first6 last4 pan_length) ;;
    ret {| EncryptResponse.token := token;
           EncryptResponse.masked_pan := masked |}.

(** The request as the framework dispatches it: the body is validated
    against [EncryptRequest] before the handler runs. *)
Definition post_encrypt (pan : str) : M EncryptResponse.t :=
  req <- lift (EncryptRequest.validate pan) ;;
  encrypt req.

Definition decrypt (req : DecryptRequest.t) (api_key : option str)
    : M DecryptResponse.t :=
  _ <- require_admin api_key ;;
  record <- get_token_record (DecryptRequest.token req) ;;
  match record with
  | None => raise (HTTPException 404 "Token not found")
  | Some record =>
      pan <- try_except
               (pan_bytes <- decrypt_pan_bytes (Row.nonce record)
                               (Row.ciphertext record) ;;
                lift (utf8_decode pan_bytes))
               (fun _ => raise (HTTPException 500 "Decryption failed")) ;;
      masked <- lift (mask_pan (Row.first6 record) (Row.last4 record)
                        (Row.pan_length record)) ;;
      ret {| DecryptResponse.pan := pan;
             DecryptResponse.masked_pan := masked |}
  end.

Definition get_metadata (token : str) : M TokenMetadata.t :=
  record <- get_token_record token ;;
  match record with
  | None => raise (HTTPException 404 "Token not found")
  | Some record =>
      masked <- lift (mask_pan (Row.first6 record) (Row.last4 record)
                        (Row.pan_length record)) ;;
      ret {| TokenMetadata.token := token;
             TokenMetadata.masked_pan := masked;
             TokenMetadata.created_at := Row.created_at record |}
  end.

(** The nonce and the token that the next [encrypt] call draws in [w]. *)
Definition next_nonce (w : World) : bytes :=
  map urandom (seq (urandom_pos w) 12).

Definition next_token (w : World) : str :=
  urlsafe_b64encode_nopad (map urandom (seq (urandom_pos w + 12) 24)).

(** The token a second draw would give, were the first one discarded. *)
Definition second_token (w : World) : str :=
  urlsafe_b64encode_nopad (map urandom (seq (urandom_pos w + 36) 24)).

(** The retry policy of the specification, read on one request: when the
    first token drawn is taken and the second is free, the call succeeds
    with the second. *)
Definition regenerates_on_duplicate (w : World) (pan : str) : Prop :=
  db w !! next_token w <> None ->
  db w !! second_token w = None ->
  exists resp w',
    post_encrypt pan w = (Ok resp, w')
    /\ EncryptResponse.token resp = second_token w.

End Service.

(** ** The specification's error names, read on the exceptions raised *)

(** A request is refused as an invalid PAN either by the model's length
    bounds or by the handler's digit test. *)
Definition InvalidPanError (e : exn) : bool :=
  match e with
  | RequestValidationError => true
  | HTTPException 400 "PAN must contain only digits" => true
  | _ => false
  end.

Definition TokenNotFoundError : exn := HTTPException 404 "Token not found".

Definition DecryptionError : exn := HTTPException 500 "Decryption failed".

(** ** A concrete instance, to run the definitions on *)

Definition str_of_string (s : string) : str :=
  map (fun a => Z.of_N (N_of_ascii a)) (list_ascii_of_string s).

Definition ascii_isdigit (c : Z) : bool := in_range 48 57 c.

Fixpoint sum_bytes (bs : bytes) : Z :=
  match bs with
  | [] => 0
  | b :: bs' => b + sum_bytes bs'
  end.

(** A stand-in cipher with the shape of an AEAD: the plaintext is preceded by
    a one-byte checksum of key, nonce and plaintext, which decryption
    verifies. *)
Definition demo_tag (key nonce data : bytes) : Z :=
  (sum_bytes key + sum_bytes nonce + sum_bytes data) mod 256.

Definition demo_encrypt (key nonce data : bytes) (aad : option bytes)
    : result bytes :=
  if valid_key_length key && (length nonce =? 12)%nat
  then Ok (demo_tag key nonce data :: data)
  else Raise (ValueError "Nonce must be 12 bytes").

Definition demo_decrypt (key nonce ct : bytes) (aad : option bytes)
    : result bytes :=
  match ct with
  | tag :: data =>
      if tag =? demo_tag key nonce data then Ok data else Raise InvalidTag
  | [] => Raise InvalidTag
  end.

Definition demo_aead : AEAD :=
  {| aes_encrypt := demo_encrypt; aes_decrypt := demo_decrypt |}.

Definition demo_key_hex : str :=
  str_of_string "000102030405060708090a0b0c0d0e0f101112131415161718191a1b1c1d1e1f".

Definition demo_key : bytes := map Z.of_nat (seq 0 32).

Definition demo_admin : str := str_of_string "admin-placeholder".

Definition demo_urandom (i : nat) : Z := (7 * Z.of_nat i + 3) mod 256.

Definition demo_clock (n : nat) : str :=
  str_of_string "2024-01-01T00:00:00" ++ [48 + Z.of_nat n mod 10].

Definition demo_urandom_octet (i : nat) : is_byte (demo_urandom i) = true.
Proof.
  unfold is_byte, in_range, demo_urandom.
  pose proof (Z.mod_pos_bound (7 * Z.of_nat i + 3) 256 eq_refl) as [Hlo Hhi].
  apply andb_true_iff. split; apply Z.leb_le; lia.
Qed.

Definition demo_env : Env :=
  {| MASTER_KEY := demo_key;
     ADMIN_API_KEY := demo_admin;
     urandom := demo_urandom;
     urandom_octet := demo_urandom_octet;
     utcnow_isoformat := demo_clock |}.

Definition empty_world : World :=
  {| db := ∅; urandom_pos := 0; clock_pos := 0 |}.

Definition demo_pan : str := str_of_string "4111111111111111".

(** The token the first request draws from [demo_urandom]. *)
Definition demo_token : str := str_of_string "V15lbHN6gYiPlp2kq7K5wMfO1dzj6vH4".

Definition demo_row (pan : str) : Row.t :=
  {| Row.token := demo_token;
     Row.ciphertext :=
       demo_tag demo_key (map demo_urandom (seq 0 12)) pan :: pan;
     Row.nonce := map demo_urandom (seq 0 12);
     Row.pan_length := len pan;
     Row.first6 := firstn 6 pan;
     Row.last4 := skipn (length pan - 4) pan;
     Row.created_at := demo_clock 0 |}.

Definition world_with (r : Row.t) (pos : nat) : World :=
  {| db := {[ Row.token r := r ]}; urandom_pos := pos; clock_pos := 1 |}.

(** A store that already holds, for another card, the very token the next
    request is about to draw. *)
Definition collision_world : World :=
  world_with (demo_row (str_of_string "5500005555555559")) 0.

(** One byte of a stored ciphertext is altered. *)
Definition tamper (r : Row.t) : Row.t :=
  {| Row.token := Row.token r;
     Row.ciphertext :=
       match Row.ciphertext r with
       | tag :: b :: rest => tag :: Z.lxor b 1 :: rest
       | bs => bs
       end;
     Row.nonce := Row.nonce r;
     Row.pan_length := Row.pan_length r;
     Row.first6 := Row.first6 r;
     Row.last4 := Row.last4 r;
     Row.created_at := Row.created_at r |}.

Definition tampered_world : World := world_with (tamper (demo_row demo_pan)) 36.


(** The masked form of a PAN, as [encrypt] computes it from the slices it
    keeps. *)
Definition masked_of (pan : str) : str :=
  let first6 := firstn 6 pan in
  let last4 := skipn (length pan - 4) pan in
  first6 ++ repeat star (Z.to_nat (len pan - len first6 - len last4)) ++ last4.

(** ** Two claims as the specification words them *)

Section AsWorded.

Context {aead : AEAD} {env : Env}.

(** Reading "digit" as one of ['0'..'9']: every PAN that is not made of
    these, or has a wrong length, is refused and nothing changes. *)
Definition refuses_all_but_ascii_digits (pan : str) (w : World) : Prop :=
  forallb ascii_isdigit pan = false \/ ~ (12 <= len pan <= 19) ->
  exists e, post_encrypt pan w = (Raise e, w) /\ InvalidPanError e = true.

(** Every token absent from the store is answered "Token not found". *)
Definition absent_token_is_not_found (token : str) (w : World) : Prop :=
  db w !! token = None ->
  fst (decrypt {| DecryptRequest.token := token |} (Some ADMIN_API_KEY) w)
  = Raise TokenNotFoundError
  /\ fst (get_metadata token w) = Raise TokenNotFoundError.

End AsWorded.

(** Twelve times the superscript two, which [str.isdigit] accepts, and a
    token made of one lone surrogate, as [json.loads] reads ["\ud800"]. *)
Definition superscript_pan : str := repeat 0xB2 12.

Definition surrogate_token : str := [0xD800].

(** ** Shapes of the values the service handles *)

Definition is_hex_digit (c : Z) : bool :=
  match hex_digit_value c with
  | Some _ => true
  | None => false
  end.

(** The alphabet of [base64.urlsafe_b64encode], padding apart. *)
Definition is_urlsafe_char (c : Z) : bool :=
  in_range 65 90 c || in_range 97 122 c || in_range 48 57 c
  || (c =? 45) || (c =? 95).

(** What [encrypt] writes in a row: the row sits under its own token, the
    nonce has twelve bytes, the length is that of a PAN the model accepts,
    and the two kept parts have six and four characters. *)
Definition row_ok (token : str) (r : Row.t) : Prop :=
  Row.token r = token
  /\ length (Row.nonce r) = 12%nat
  /\ 12 <= Row.pan_length r <= 19
  /\ len (Row.first6 r) = 6
  /\ len (Row.last4 r) = 4.

Section Reachable.

Context {aead : AEAD} {env : Env}.

(** [init_db] (lines 43-58) creates the table when the database file is
    new; from there on the table only changes through the endpoints. *)
Definition init_db (urandom_pos clock_pos : nat) : World :=
  {| db := ∅; urandom_pos := urandom_pos; clock_pos := clock_pos |}.

(** [evolves w w'] : the service, in world [w], answers a sequence of
    requests, of any kind and with any arguments, and is left in [w']. *)
Inductive evolves (w : World) : World -> Prop :=
| evolves_refl : evolves w w
| evolves_encrypt (w' : World) (pan : str) :
    evolves w w' -> evolves w (snd (post_encrypt pan w'))
| evolves_decrypt (w' : World) (req : DecryptRequest.t) (api_key : option str) :
    evolves w w' -> evolves w (snd (decrypt req api_key w'))
| evolves_get_metadata (w' : World) (token : str) :
    evolves w w' -> evolves w (snd (get_metadata token w')).

Definition reachable (w : World) : Prop :=
  exists pos clk, evolves (init_db pos clk) w.

End Reachable.

(** Two requests in a row on the concrete instance, and a lookup after
    them. *)
Definition demo_pan2 : str := str_of_string "5500005555555559".

Definition demo_world1 : World :=
  snd (post_encrypt (aead := demo_aead) (env := demo_env) demo_pan empty_world).

Definition demo_resp1 : EncryptResponse.t :=
  {| EncryptResponse.token := demo_token;
     EncryptResponse.masked_pan := str_of_string "411111******1111" |}.

Definition demo_world2 : World :=
  snd (post_encrypt (aead := demo_aead) (env := demo_env) demo_pan2 demo_world1).

Definition demo_resp2 : EncryptResponse.t :=
  {| EncryptResponse.token := next_token (env := demo_env) demo_world1;
     EncryptResponse.masked_pan := str_of_string "550000******5559" |}.

Definition demo_world3 : World :=
  snd (get_metadata demo_token demo_world2).

(** ** Codec lemmas *)

Lemma in_range_true (lo hi x : Z) : in_range lo hi x = true <-> lo <= x <= hi.
Proof. unfold in_range. rewrite andb_true_iff, !Z.leb_le. tauto. Qed.

Lemma in_range_false (lo hi x : Z) :
  in_range lo hi x = false <-> x < lo \/ hi < x.
Proof. unfold in_range. rewrite andb_false_iff, !Z.leb_gt. tauto. Qed.

Ltac range_hyps :=
  repeat match goal with
         | H : in_range _ _ _ = true |- _ => apply in_range_true in H
         | H : in_range _ _ _ = false |- _ => apply in_range_false in H
         end.

Ltac divmod_lia := Z.div_mod_to_equations; lia.

Ltac range_goal :=
  repeat match goal with
         | |- context [in_range ?lo ?hi ?x] =>
             first
               [ replace (in_range lo hi x) with true
                   by (symmetry; apply in_range_true; divmod_lia)
               | replace (in_range lo hi x) with false
                   by (symmetry; apply in_range_false; divmod_lia) ]
         end.

Lemma utf8_decode_encode_char (c : Z) (bs rest : bytes) :
  utf8_encode_char c = Ok bs ->
  utf8_decode (bs ++ rest) = result_map (cons c) (utf8_decode rest).
Proof.
  unfold utf8_encode_char, is_surrogate.
  intros H.
  repeat match type of H with
         | context [if ?b then _ else _] => destruct b eqn:?
         end; inversion H; subst; clear H; range_hyps;
    cbn [app utf8_decode]; cbv zeta; unfold is_continuation, is_surrogate;
    range_goal; cbn [andb negb]; do 2 f_equal; divmod_lia.
Qed.

Lemma utf8_decode_encode (s : str) (bs : bytes) :
  utf8_encode s = Ok bs -> utf8_decode bs = Ok s.
Proof.
  revert bs. induction s as [|c s IH]; intros bs H; cbn in H.
  - inversion H. reflexivity.
  - destruct (utf8_encode_char c) as [cs|] eqn:Hc; cbn in H; [|discriminate].
    destruct (utf8_encode s) as [rest|] eqn:Hs; cbn in H; [|discriminate].
    inversion H; subst.
    rewrite (utf8_decode_encode_char c cs rest Hc), (IH rest eq_refl).
    reflexivity.
Qed.

Lemma utf8_encode_char_total (c : Z) :
  is_scalar_value c = true -> exists bs, utf8_encode_char c = Ok bs.
Proof.
  unfold is_scalar_value, utf8_encode_char. intros H.
  apply andb_true_iff in H as [Hr Hs]. apply negb_true_iff in Hs.
  rewrite Hs. apply in_range_true in Hr.
  repeat match goal with
         | |- context [if in_range ?lo ?hi c then _ else _] =>
             destruct (in_range lo hi c) eqn:?
         end; eauto.
  range_hyps. lia.
Qed.

Lemma utf8_encode_total (s : str) :
  forallb is_scalar_value s = true -> exists bs, utf8_encode s = Ok bs.
Proof.
  induction s as [|c s IH]; cbn [forallb utf8_encode]; intros H.
  - eauto.
  - apply andb_true_iff in H as [Hc Hs].
    destruct (utf8_encode_char_total c Hc) as [cs ->].
    destruct (IH Hs) as [rest ->]. cbn. eauto.
Qed.

(** ** More on the codecs *)

Lemma result_map_Raise {A B} (f : A -> B) (r : result A) (e : exn) :
  result_map f r = Raise e -> r = Raise e.
Proof. destruct r; cbn; congruence. Qed.

Lemma utf8_decode_raises_bounded (n : nat) (bs : bytes) (e : exn) :
  (length bs <= n)%nat -> utf8_decode bs = Raise e -> e = UnicodeDecodeError.
Proof.
  revert bs. induction n as [|n IH]; intros bs Hlen H.
  - destruct bs; [discriminate | cbn in Hlen; lia].
  - destruct bs as [|b0 r0]; [discriminate|].
    cbn [utf8_decode] in H. cbv zeta in H. cbn [length] in Hlen.
    repeat match type of H with
           | context [if ?b then _ else _] => destruct b
           | context [match ?l with [] => _ | _ :: _ => _ end] =>
               destruct l; cbn [length] in Hlen
           end;
      try (inversion H; reflexivity);
      apply result_map_Raise in H; (eapply IH; [|exact H]); lia.
Qed.

Lemma utf8_decode_raises (bs : bytes) (e : exn) :
  utf8_decode bs = Raise e -> e = UnicodeDecodeError.
Proof. apply (utf8_decode_raises_bounded (length bs)). lia. Qed.

Lemma list_ind3 {A} (P : list A -> Prop) :
  P [] -> (forall a, P [a]) -> (forall a b, P [a; b]) ->
  (forall a b c l, P l -> P (a :: b :: c :: l)) ->
  forall l, P l.
Proof.
  intros H0 H1 H2 H3 l.
  assert (H : P l /\ (forall a, P (a :: l)) /\ (forall a b, P (a :: b :: l))).
  { induction l as [|x l (IH0 & IH1 & IH2)]; [by auto|].
    split; [apply IH1|]. split; [intros a; apply IH2|].
    intros a b. by apply H3. }
  apply H.
Qed.

Lemma length_urlsafe_b64encode_nopad (bs : bytes) :
  Z.of_nat (length (urlsafe_b64encode_nopad bs))
  = (4 * Z.of_nat (length bs) + 2) / 3.
Proof.
  induction bs as [|a|a b|a b c l IH] using list_ind3; try reflexivity.
  cbn [urlsafe_b64encode_nopad length].
  rewrite !Nat2Z.inj_succ, IH.
  divmod_lia.
Qed.

Lemma b64_char_urlsafe (i : Z) :
  0 <= i <= 63 -> is_urlsafe_char (b64_char i) = true.
Proof.
  intros Hi. unfold b64_char, is_urlsafe_char.
  repeat match goal with
         | |- context [if ?b then _ else _] => destruct b eqn:?
         end;
    repeat match goal with
           | H : (_ <? _) = true |- _ => apply Z.ltb_lt in H
           | H : (_ <? _) = false |- _ => apply Z.ltb_ge in H
           | H : (_ =? _) = true |- _ => apply Z.eqb_eq in H
           | H : (_ =? _) = false |- _ => apply Z.eqb_neq in H
           end;
    try reflexivity.
  - rewrite (proj2 (in_range_true 65 90 _)) by lia. reflexivity.
  - rewrite (proj2 (in_range_true 97 122 _)) by lia.
    by rewrite orb_true_r.
  - rewrite (proj2 (in_range_true 48 57 _)) by lia.
    by rewrite !orb_true_r.
Qed.

Lemma urlsafe_b64encode_nopad_alphabet (bs : bytes) :
  forallb is_byte bs = true ->
  forallb is_urlsafe_char (urlsafe_b64encode_nopad bs) = true.
Proof.
  unfold is_byte.
  induction bs as [|a|a b|a b c l IH] using list_ind3;
    cbn [urlsafe_b64encode_nopad forallb]; intros H;
    repeat match type of H with
           | _ && _ = true => apply andb_true_iff in H as [? H]
           end;
    range_hyps;
    rewrite ?IH by assumption;
    rewrite ?b64_char_urlsafe by divmod_lia; reflexivity.
Qed.

Lemma lookup_repeat {A} (x : A) (n i : nat) :
  (i < n)%nat -> repeat x n !! i = Some x.
Proof.
  revert i. induction n as [|n IH]; intros [|i] Hi; cbn; try lia; [done|].
  apply IH. lia.
Qed.

(** ** Text the store accepts, digits, tokens *)

Lemma utf8_encode_char_bytes (c : Z) (bs : bytes) :
  utf8_encode_char c = Ok bs ->
  is_scalar_value c = true
  /\ forallb is_byte bs = true
  /\ (1 <= length bs <= 4)%nat
  /\ (in_range 0 0x7F c = true -> bs = [c]).
Proof.
  unfold utf8_encode_char, is_scalar_value, is_surrogate, is_byte.
  intros H.
  repeat match type of H with
         | context [if ?b then _ else _] => destruct b eqn:?
         end; inversion H; subst; clear H; range_hyps;
    cbn [forallb length]; range_goal; cbn [andb negb];
    (repeat split; try reflexivity; try lia; intros; lia).
Qed.

Lemma utf8_encode_encodable (s : str) (bs : bytes) :
  utf8_encode s = Ok bs -> encodable s = true.
Proof.
  revert bs. induction s as [|c s IH]; intros bs Hbs; [reflexivity|].
  cbn [utf8_encode encodable forallb] in *.
  destruct (utf8_encode_char c) as [cs|] eqn:Hc; cbn in Hbs; [|discriminate].
  destruct (utf8_encode s) as [rest|] eqn:Hs; cbn in Hbs; [|discriminate].
  destruct (utf8_encode_char_bytes c cs Hc) as (-> & _).
  exact (IH rest eq_refl).
Qed.

Lemma forallb_firstn {A} (f : A -> bool) (n : nat) (l : list A) :
  forallb f l = true -> forallb f (firstn n l) = true.
Proof.
  revert n. induction l as [|x l IH]; intros [|n] H; try reflexivity.
  cbn [forallb firstn] in *. apply andb_true_iff in H as [-> H].
  by rewrite IH.
Qed.

Lemma forallb_skipn {A} (f : A -> bool) (n : nat) (l : list A) :
  forallb f l = true -> forallb f (skipn n l) = true.
Proof.
  revert n. induction l as [|x l IH]; intros [|n] H; try done.
  cbn [forallb skipn] in *. apply andb_true_iff in H as [_ H]. by apply IH.
Qed.

Lemma digit_ranges_scalar :
  forallb (fun r => (0 <=? fst r) && (snd r <=? 0x10FFFF)
                    && ((snd r <? 0xD800) || (0xDFFF <? fst r)))
    digit_ranges = true.
Proof. vm_compute. reflexivity. Qed.

Lemma Py_UNICODE_ISDIGIT_scalar (c : Z) :
  Py_UNICODE_ISDIGIT c = true -> is_scalar_value c = true.
Proof.
  unfold Py_UNICODE_ISDIGIT. intros H.
  apply existsb_exists in H as (r & Hr & Hc).
  pose proof (proj1 (forallb_forall _ _) digit_ranges_scalar r Hr) as Hb.
  cbv beta in Hb. apply andb_true_iff in Hb as [Hb Hsur].
  apply andb_true_iff in Hb as [Hlo Hhi].
  apply Z.leb_le in Hlo, Hhi. apply in_range_true in Hc.
  unfold is_scalar_value, is_surrogate.
  rewrite (proj2 (in_range_true 0 0x10FFFF c)) by lia.
  apply orb_true_iff in Hsur as [Hs|Hs]; apply Z.ltb_lt in Hs;
    rewrite (proj2 (in_range_false 0xD800 0xDFFF c)) by lia; reflexivity.
Qed.

Lemma existsb_ranges_above (l : list (Z * Z)) (c bound : Z) :
  forallb (fun r => bound <? fst r) l = true -> c <= bound ->
  existsb (fun r => in_range (fst r) (snd r) c) l = false.
Proof.
  intros Hall Hc. induction l as [|r l IH]; [reflexivity|].
  cbn [forallb existsb] in *. apply andb_true_iff in Hall as [Hr Hall].
  apply Z.ltb_lt in Hr.
  rewrite (proj2 (in_range_false (fst r) (snd r) c)) by lia.
  by rewrite IH.
Qed.

(** On ASCII the digit table is ['0'..'9']. *)
Lemma Py_UNICODE_ISDIGIT_ascii (c : Z) :
  c <= 127 -> Py_UNICODE_ISDIGIT c = in_range 48 57 c.
Proof.
  intros Hc. unfold Py_UNICODE_ISDIGIT.
  change digit_ranges with ((48, 57) :: tl digit_ranges).
  cbn [existsb fst snd].
  rewrite (existsb_ranges_above (tl digit_ranges) c 127 eq_refl Hc).
  apply orb_false_r.
Qed.

Lemma isdigit_encodable (pan : str) :
  isdigit pan = true -> encodable pan = true.
Proof.
  intros Hdig. apply forallb_forall. intros c Hc.
  apply Py_UNICODE_ISDIGIT_scalar.
  destruct pan as [|c0 pan']; [discriminate|].
  unfold isdigit in Hdig. by apply (proj1 (forallb_forall _ _) Hdig).
Qed.

Lemma urlsafe_char_scalar (c : Z) :
  is_urlsafe_char c = true -> is_scalar_value c = true.
Proof.
  unfold is_urlsafe_char, is_scalar_value, is_surrogate. intros H.
  assert (Hc : 45 <= c <= 122).
  { repeat (apply orb_true_iff in H as [H|H]);
      first [apply in_range_true in H | apply Z.eqb_eq in H]; lia. }
  rewrite (proj2 (in_range_true 0 0x10FFFF c)) by lia.
  by rewrite (proj2 (in_range_false 0xD800 0xDFFF c)) by lia.
Qed.

Lemma urlsafe_b64encode_nopad_encodable (bs : bytes) :
  forallb is_byte bs = true -> encodable (urlsafe_b64encode_nopad bs) = true.
Proof.
  intros Hb. apply forallb_forall. intros c Hc. apply urlsafe_char_scalar.
  exact (proj1 (forallb_forall _ _)
           (urlsafe_b64encode_nopad_alphabet bs Hb) c Hc).
Qed.

(** ** Masking *)

Lemma len_app {A} (l1 l2 : list A) : len (l1 ++ l2) = len l1 + len l2.
Proof. unfold len. rewrite length_app. lia. Qed.

Lemma len_repeat {A} (x : A) (n : nat) : len (repeat x n) = Z.of_nat n.
Proof. unfold len. by rewrite repeat_length. Qed.

Lemma len_nonneg {A} (l : list A) : 0 <= len l.
Proof. unfold len. lia. Qed.

Lemma mask_pan_ok (first6 last4 : str) (n : Z) :
  - 2 ^ 63 <= n - len first6 - len last4 ->
  mask_pan first6 last4 n
  = Ok (first6 ++ repeat star (Z.to_nat (n - len first6 - len last4)) ++ last4).
Proof.
  intros Hn. unfold mask_pan. cbv zeta.
  by rewrite (proj2 (Z.ltb_ge _ _) Hn).
Qed.


Lemma mask_pan_raises (first6 last4 : str) (n : Z) (e : exn) :
  mask_pan first6 last4 n = Raise e -> e = OverflowError.
Proof. unfold mask_pan. cbv zeta. destruct (_ <? _); congruence. Qed.

(** The slices [encrypt] takes of a PAN never make the count overflow. *)
Lemma mask_pan_slices (pan : str) :
  mask_pan (firstn 6 pan) (skipn (length pan - 4) pan) (len pan)
  = Ok (masked_of pan).
Proof.
  apply mask_pan_ok. unfold len. rewrite length_take, length_drop. lia.
Qed.



(** C10, as the code has it. When the total length is smaller than the two
    kept parts together, but not so far below them that the count of
    asterisks leaves the range of a machine index, [mask_pan] does not
    fail: it returns the first part immediately followed by the last part,
    with no asterisk, so the result is strictly longer than the total
    length it was asked for and the length equation
    [pan_length = len first6 + middle + len last4] does not hold of it. *)
Theorem mask_pan_short_length (first6 last4 : str) (totalLength : Z) :
  totalLength < len first6 + len last4 ->
  - 2 ^ 63 <= totalLength - len first6 - len last4 ->
  mask_pan first6 last4 totalLength = Ok (first6 ++ last4)
  /\ totalLength < len (first6 ++ last4)
  /\ let middle := Z.of_nat (Z.to_nat (totalLength - len first6 - len last4)) in
     middle = 0 /\ totalLength <> len first6 + middle + len last4.
Proof.
  intros Hlt Hfit.
  split.
  - rewrite (mask_pan_ok _ _ _ Hfit).
    replace (Z.to_nat (totalLength - len first6 - len last4)) with 0%nat by lia.
    reflexivity.
  - rewrite len_app. cbv zeta. repeat split; lia.
Qed.

Lemma mask_pan_short_length_example :
  5 < len (str_of_string "411111") + len (str_of_string "1111")
  /\ mask_pan (str_of_string "411111") (str_of_string "1111") 5
     = Ok (str_of_string "4111111111")
  /\ 5 < len (str_of_string "4111111111").
Proof.
  split; [reflexivity|].
  destruct (mask_pan_short_length (str_of_string "411111")
              (str_of_string "1111") 5) as (Hrun & Hlen & _).
  - reflexivity.
  - vm_compute; discriminate.
  - split; [exact Hrun | exact Hlen].
Defined.

(** C10 as the specification words it fails: far enough below the two
    parts, the multiplication raises instead of giving the empty string. *)
Lemma mask_pan_short_length_overflow :
  - 2 ^ 63 < len (str_of_string "411111") + len (str_of_string "1111")
  /\ mask_pan (str_of_string "411111") (str_of_string "1111") (- 2 ^ 63)
     = Raise OverflowError
  /\ mask_pan (str_of_string "411111") (str_of_string "1111") (- 2 ^ 63)
     <> Ok (str_of_string "411111" ++ str_of_string "1111").
Proof. split; [reflexivity|]. split; [reflexivity|discriminate]. Qed.

(** ** The service *)

Section ServiceFacts.

Context {aead : AEAD} {env : Env}.

Lemma AESGCM_valid_key (key : bytes) :
  valid_key_length key = true -> AESGCM key = Ok key.
Proof. unfold AESGCM. by intros ->. Qed.

Lemma length_next_nonce (w : World) : length (next_nonce w) = 12%nat.
Proof. unfold next_nonce. by rewrite length_map, length_seq. Qed.

Lemma next_token_encodable (w : World) : encodable (next_token w) = true.
Proof.
  apply urlsafe_b64encode_nopad_encodable, forallb_forall.
  intros b Hb. apply in_map_iff in Hb as (i & <- & _). apply urandom_octet.
Qed.

Lemma encrypt_pan_bytes_run (pan_bytes : bytes) (w : World) :
  valid_key_length MASTER_KEY = true ->
  encrypt_pan_bytes pan_bytes w
  = (result_map (pair (next_nonce w))
       (aes_encrypt MASTER_KEY (next_nonce w) pan_bytes None),
     {| db := db w; urandom_pos := (urandom_pos w + 12)%nat;
        clock_pos := clock_pos w |}).
Proof.
  intros Hkey. unfold encrypt_pan_bytes, bind, lift, token_bytes, ret.
  rewrite (AESGCM_valid_key _ Hkey). fold (next_nonce w).
  by destruct (aes_encrypt _ _ _ _).
Qed.

(** What the two database helpers and the metadata endpoint do, case by
    case. *)
Lemma get_token_record_run (token : str) (w : World) :
  get_token_record token w
  = (if encodable token then Ok (db w !! token) else Raise UnicodeEncodeError,
     w).
Proof.
  unfold get_token_record, bind_text, bind, ret, raise.
  by destruct (encodable token).
Qed.

Lemma save_token_run (token : str) (nonce ciphertext : bytes)
    (pan_length : Z) (first6 last4 : str) (w : World) :
  save_token token nonce ciphertext pan_length first6 last4 w
  = let w1 := {| db := db w; urandom_pos := urandom_pos w;
                 clock_pos := S (clock_pos w) |} in
    if negb (encodable token) then (Raise UnicodeEncodeError, w1)
    else if negb (in_range (- 2 ^ 63) (2 ^ 63 - 1) pan_length)
    then (Raise OverflowError, w1)
    else if negb (encodable first6 && encodable last4)
    then (Raise UnicodeEncodeError, w1)
    else match db w !! token with
         | Some _ => (Raise IntegrityError, w1)
         | None =>
             (Ok tt,
              {| db := <[token := {| Row.token := token;
                                     Row.ciphertext := ciphertext;
                                     Row.nonce := nonce;
                                     Row.pan_length := pan_length;
                                     Row.first6 := first6;
                                     Row.last4 := last4;
                                     Row.created_at :=
                                       utcnow_isoformat (clock_pos w) |}]>
                         (db w);
                 urandom_pos := urandom_pos w;
                 clock_pos := S (clock_pos w) |})
         end.
Proof.
  unfold save_token, utcnow, bind_text, bind_int, bind, ret, raise.
  cbv zeta.
  destruct (encodable token); [|reflexivity].
  destruct (in_range _ _ pan_length); [|reflexivity].
  destruct (encodable first6); [|reflexivity].
  destruct (encodable last4); [|reflexivity].
  cbn [negb andb db urandom_pos clock_pos].
  by destruct (db w !! token).
Qed.

Lemma get_metadata_run (token : str) (w : World) :
  get_metadata token w
  = (if encodable token then
       match db w !! token with
       | None => Raise TokenNotFoundError
       | Some r =>
           result_map
             (fun masked =>
                {| TokenMetadata.token := token;
                   TokenMetadata.masked_pan := masked;
                   TokenMetadata.created_at := Row.created_at r |})
             (mask_pan (Row.first6 r) (Row.last4 r) (Row.pan_length r))
       end
     else Raise UnicodeEncodeError, w).
Proof.
  unfold get_metadata, bind. rewrite get_token_record_run.
  destruct (encodable token); [|reflexivity].
  destruct (db w !! token) as [r|]; [|reflexivity].
  unfold lift, ret. by destruct (mask_pan _ _ _).
Qed.

(** C9. Each call of [encrypt_pan_bytes] under a master key of valid size
    draws twelve bytes, no fewer, from the [secrets] source at positions
    not read before, moves the source past them, encrypts the plaintext
    under the master key and that nonce with no associated data, and
    returns the nonce together with the ciphertext. *)
Theorem encrypt_pan_bytes_fresh_nonce (pan_bytes : bytes) (w : World) :
  valid_key_length MASTER_KEY = true ->
  let nonce := map urandom (seq (urandom_pos w) 12) in
  let out := encrypt_pan_bytes pan_bytes w in
  length nonce = 12%nat
  /\ fst out = result_map (pair nonce)
                 (aes_encrypt MASTER_KEY nonce pan_bytes None)
  /\ urandom_pos (snd out) = (urandom_pos w + 12)%nat
  /\ db (snd out) = db w.
Proof.
  intros Hkey nonce out. subst out.
  rewrite (encrypt_pan_bytes_run _ _ Hkey). cbn [fst snd urandom_pos db].
  split; [apply length_next_nonce | done].
Qed.

(** C3, as the code has it. A request is refused as an invalid PAN, and the
    world after the call is the world before it (no row is inserted,
    nothing is drawn from the random source, the clock is not read), when
    [str.isdigit] rejects the PAN (it is empty or holds a character that
    is not a Unicode digit), in particular when the PAN holds an ASCII
    character other than ['0'..'9'], or when its length lies outside 12 to
    19, or when it holds a lone surrogate. *)
Theorem encrypt_rejects_invalid_pan (pan : str) (w : World) :
  isdigit pan = false
  \/ (exists c, In c pan /\ c <= 127 /\ in_range 48 57 c = false)
  \/ ~ (12 <= len pan <= 19)
  \/ encodable pan = false ->
  exists e, post_encrypt pan w = (Raise e, w) /\ InvalidPanError e = true.
Proof.
  intros Hbad.
  assert (Hbad' : isdigit pan = false \/ ~ (12 <= len pan <= 19)
                  \/ encodable pan = false).
  { destruct Hbad as [H|[(c & Hin & Hascii & Hnot)|H]]; [by left| |by right].
    left. destruct pan as [|c0 pan']; [reflexivity|].
    unfold isdigit. apply not_true_is_false. intros Hall.
    pose proof (proj1 (forallb_forall _ _) Hall c Hin) as Hc.
    rewrite (Py_UNICODE_ISDIGIT_ascii c Hascii) in Hc. congruence. }
  clear Hbad.
  unfold post_encrypt, EncryptRequest.validate, bind, lift.
  destruct (encodable pan) eqn:Henc; cbn [andb];
    [|by exists RequestValidationError].
  destruct (in_range 12 19 (len pan)) eqn:Hlen;
    [|by exists RequestValidationError].
  apply in_range_true in Hlen.
  destruct Hbad' as [Hdig|[Hout|?]]; [|contradiction|discriminate].
  unfold encrypt. cbn [EncryptRequest.pan]. rewrite Hdig. cbn [negb].
  by eexists.
Qed.

(** C5. The metadata lookup of a stored token answers with the token, the
    masked PAN and the creation time, and nothing else; its answer is
    computed from [first6], [last4], [pan_length] and [created_at] alone,
    so two rows that agree on these four fields, whatever their
    ciphertexts and nonces, give the same answer; the world is left as it
    was. The answer is the record whenever the token is text the store can
    look up and the mask can be computed from the row; it is never
    anything but that record or an exception. *)
Theorem get_metadata_masked_only (token : str) (w1 w2 : World) (r1 r2 : Row.t) :
  db w1 !! token = Some r1 ->
  db w2 !! token = Some r2 ->
  Row.first6 r1 = Row.first6 r2 ->
  Row.last4 r1 = Row.last4 r2 ->
  Row.pan_length r1 = Row.pan_length r2 ->
  Row.created_at r1 = Row.created_at r2 ->
  get_metadata token w1
  = (if encodable token then
       result_map
         (fun masked =>
            {| TokenMetadata.token := token;
               TokenMetadata.masked_pan := masked;
               TokenMetadata.created_at := Row.created_at r1 |})
         (mask_pan (Row.first6 r1) (Row.last4 r1) (Row.pan_length r1))
     else Raise UnicodeEncodeError, w1)
  /\ fst (get_metadata token w1) = fst (get_metadata token w2).
Proof.
  intros H1 H2 Hf Hl Hn Hc.
  rewrite !get_metadata_run, H1, H2. cbn [fst].
  by rewrite Hf, Hl, Hn, Hc.
Qed.

(** C6, as the code has it. For a token that is text the store can look up
    (no lone surrogate) and that is not in the store, both the privileged
    [decrypt] and the metadata lookup fail with "Token not found" (404) and
    leave the world as it was. That answer is kept apart from a failure of
    the store: when the lookup itself raises, both endpoints let that
    exception through, answered 500; and either endpoint answers "Token not
    found" only when the lookup returned no row. *)
Theorem unknown_token_not_found (token : str) (w : World) :
  (encodable token = true -> db w !! token = None ->
   decrypt {| DecryptRequest.token := token |} (Some ADMIN_API_KEY) w
   = (Raise TokenNotFoundError, w)
   /\ get_metadata token w = (Raise TokenNotFoundError, w))
  /\ (forall e, fst (get_token_record token w) = Raise e ->
        fst (decrypt {| DecryptRequest.token := token |}
               (Some ADMIN_API_KEY) w) = Raise e
        /\ fst (get_metadata token w) = Raise e
        /\ http_status e = 500
        /\ http_status TokenNotFoundError = 404)
  /\ (fst (decrypt {| DecryptRequest.token := token |}
             (Some ADMIN_API_KEY) w) = Raise TokenNotFoundError
      <-> fst (get_token_record token w) = Ok None)
  /\ (fst (get_metadata token w) = Raise TokenNotFoundError
      <-> fst (get_token_record token w) = Ok None).
Proof.
  rewrite get_metadata_run, get_token_record_run.
  unfold decrypt, bind, require_admin, ret, raise.
  cbn [DecryptRequest.token]. rewrite decide_True by done.
  rewrite get_token_record_run. cbn [fst].
  destruct (encodable token).
  - destruct (db w !! token) as [r|] eqn:Hrow.
    + split; [intros _ [=]|]. split; [intros e [=]|].
      unfold try_except, decrypt_pan_bytes, bind, lift, ret, raise.
      split; (split; [|intros [=]]).
      * destruct (AESGCM MASTER_KEY) as [aes|e0].
        -- destruct (aes_decrypt aes _ _ None) as [pt|e1].
           ++ destruct (utf8_decode pt) as [pan|e2].
              ** destruct (mask_pan _ _ _) as [m|e3] eqn:Hm; [done|].
                 by rewrite (mask_pan_raises _ _ _ _ Hm).
              ** by destruct e2.
           ++ by destruct e1.
        -- by destruct e0.
      * destruct (mask_pan _ _ _) as [m|e3] eqn:Hm; [done|].
        by rewrite (mask_pan_raises _ _ _ _ Hm).
    + split; [done|]. split; [intros e [=]|]. done.
  - split; [intros [=]|]. split; [by intros e [= <-]|].
    split; (split; [intros [=]|intros [=]]).
Qed.

(** C7. When the cipher refuses the stored nonce and ciphertext of a
    record, whatever exception it raises, the privileged [decrypt] fails
    with the fixed answer "Decryption failed" (500): the answer carries
    nothing of the cipher's exception and no plaintext, and the world is
    left as it was. This is so for every token the store can look up; a
    token holding a lone surrogate makes the lookup itself raise. *)
Theorem decrypt_failure_is_generic (token : str) (w : World) (record : Row.t)
    (e : exn) :
  valid_key_length MASTER_KEY = true ->
  db w !! token = Some record ->
  aes_decrypt MASTER_KEY (Row.nonce record) (Row.ciphertext record) None
  = Raise e ->
  is_Exception e = true ->
  decrypt {| DecryptRequest.token := token |} (Some ADMIN_API_KEY) w
  = (Raise (if encodable token then DecryptionError else UnicodeEncodeError),
     w).
Proof.
  intros Hkey Hrow Hfail Hexc.
  unfold decrypt, bind, require_admin, ret, raise.
  cbn [DecryptRequest.token]. rewrite decide_True by done.
  rewrite get_token_record_run.
  destruct (encodable token); [|reflexivity].
  rewrite Hrow.
  unfold decrypt_pan_bytes, try_except, bind, lift, ret, raise.
  rewrite (AESGCM_valid_key _ Hkey). cbn beta iota.
  by rewrite Hfail, Hexc.
Qed.

(** What a request with a valid PAN does, step by step: the PAN is
    encoded, a nonce is drawn, the cipher runs, a token is drawn, the clock
    is read, and the INSERT either raises on a taken token or adds the
    row. *)
Lemma post_encrypt_valid (pan : str) (w : World) :
  AEAD_correct aead ->
  valid_key_length MASTER_KEY = true ->
  isdigit pan = true ->
  12 <= len pan <= 19 ->
  exists pan_bytes ct masked,
    utf8_encode pan = Ok pan_bytes
    /\ aes_decrypt MASTER_KEY (next_nonce w) ct None = Ok pan_bytes
    /\ mask_pan (firstn 6 pan) (skipn (length pan - 4) pan) (len pan)
       = Ok masked
    /\ post_encrypt pan w
       = let w' db' := {| db := db'; urandom_pos := (urandom_pos w + 12 + 24)%nat;
                          clock_pos := S (clock_pos w) |} in
         match db w !! next_token w with
         | Some _ => (Raise IntegrityError, w' (db w))
         | None =>
             (Ok {| EncryptResponse.token := next_token w;
                    EncryptResponse.masked_pan := masked |},
              w' (<[next_token w :=
                      {| Row.token := next_token w;
                         Row.ciphertext := ct;
                         Row.nonce := next_nonce w;
                         Row.pan_length := len pan;
                         Row.first6 := firstn 6 pan;
                         Row.last4 := skipn (length pan - 4) pan;
                         Row.created_at := utcnow_isoformat (clock_pos w) |}]>
                    (db w)))
         end.
Proof.
  intros Haead Hkey Hdig Hlen.
  pose proof (isdigit_encodable pan Hdig) as Henc.
  destruct (utf8_encode_total pan Henc) as [bs Hbs].
  destruct (Haead MASTER_KEY (next_nonce w) bs Hkey (length_next_nonce w))
    as (ct & Hct & Hdec).
  exists bs, ct. eexists. split; [done|]. split; [done|].
  split; [apply mask_pan_slices|].
  unfold post_encrypt, EncryptRequest.validate.
  rewrite Henc, (proj2 (in_range_true 12 19 (len pan)) Hlen).
  unfold bind at 1. unfold lift at 1. unfold encrypt.
  cbn [andb EncryptRequest.pan]. rewrite Hdig. cbn [negb].
  unfold bind at 1. unfold lift at 1. rewrite Hbs.
  unfold bind at 1. rewrite (encrypt_pan_bytes_run _ _ Hkey), Hct.
  cbn [result_map result_bind].
  unfold bind at 1. unfold token_urlsafe, token_bytes, bind at 1, ret.
  cbn [db urandom_pos clock_pos]. fold (next_token w).
  unfold bind at 1. rewrite save_token_run. cbv zeta.
  cbn [db urandom_pos clock_pos].
  rewrite next_token_encodable.
  rewrite (proj2 (in_range_true (- 2 ^ 63) (2 ^ 63 - 1) (len pan))) by lia.
  unfold encodable in *. rewrite (forallb_firstn _ _ _ Henc),
    (forallb_skipn _ _ _ Henc).
  cbn [negb andb].
  destruct (db w !! next_token w); [reflexivity|].
  unfold bind, lift, ret. by rewrite mask_pan_slices.
Qed.

(** C1. For a PAN of 12 to 19 characters, all digits, a tokenization that
    draws a token not yet in the store succeeds; and whenever tokenization
    returns a token, the privileged [decrypt] of that token, in the world
    tokenization left, returns the PAN that was given, with the same
    masked form. Assumed of the collaborators: the cipher decrypts what it
    encrypted, and the master key passed the startup check. *)
Theorem tokenize_resolve_roundtrip (pan : str) (w : World) :
  AEAD_correct aead ->
  valid_key_length MASTER_KEY = true ->
  isdigit pan = true ->
  12 <= len pan <= 19 ->
  (db w !! next_token w = None ->
   exists resp w', post_encrypt pan w = (Ok resp, w'))
  /\ (forall resp w',
        post_encrypt pan w = (Ok resp, w') ->
        decrypt {| DecryptRequest.token := EncryptResponse.token resp |}
          (Some ADMIN_API_KEY) w'
        = (Ok {| DecryptResponse.pan := pan;
                 DecryptResponse.masked_pan := EncryptResponse.masked_pan resp |},
           w')).
Proof.
  intros Haead Hkey Hdig Hlen.
  destruct (post_encrypt_valid pan w Haead Hkey Hdig Hlen)
    as (bs & ct & masked & Hbs & Hdec & Hmask & Hrun).
  rewrite Hrun. cbv zeta. split.
  - intros ->. eauto.
  - intros resp w' Hok.
    destruct (db w !! next_token w); [discriminate|].
    inversion Hok; subst resp w'; clear Hok.
    unfold decrypt, bind, require_admin, ret, raise.
    cbn [DecryptRequest.token EncryptResponse.token
         EncryptResponse.masked_pan].
    rewrite decide_True by done.
    rewrite get_token_record_run, next_token_encodable.
    cbn [db]. rewrite lookup_insert_eq.
    unfold decrypt_pan_bytes, try_except, bind, lift, ret, raise.
    rewrite (AESGCM_valid_key _ Hkey).
    cbn [Row.nonce Row.ciphertext Row.first6 Row.last4 Row.pan_length].
    by rewrite Hdec, (utf8_decode_encode _ _ Hbs), Hmask.
Qed.

(** C4, as the code has it. When the token drawn for a valid PAN is already
    in the store, the INSERT is attempted once and its integrity error
    leaves the handler, answered 500: the table is unchanged, and the
    random source has given the nonce and one token, no second token. The
    assumptions on the collaborators are those of C1. *)
Theorem encrypt_duplicate_token_fails (pan : str) (w : World) :
  AEAD_correct aead ->
  valid_key_length MASTER_KEY = true ->
  isdigit pan = true ->
  12 <= len pan <= 19 ->
  db w !! next_token w <> None ->
  let out := post_encrypt pan w in
  fst out = Raise IntegrityError
  /\ http_status IntegrityError = 500
  /\ db (snd out) = db w
  /\ urandom_pos (snd out) = (urandom_pos w + 12 + 24)%nat.
Proof.
  intros Haead Hkey Hdig Hlen Hdup out. subst out.
  destruct (post_encrypt_valid pan w Haead Hkey Hdig Hlen)
    as (bs & ct & masked & _ & _ & _ & Hrun).
  rewrite Hrun. cbv zeta.
  by destruct (db w !! next_token w).
Qed.

End ServiceFacts.

(** ** Startup *)

Lemma valid_key_length_spec (key : bytes) :
  valid_key_length key = true <-> len key = 16 \/ len key = 24 \/ len key = 32.
Proof.
  unfold valid_key_length. cbv zeta. rewrite !orb_true_iff, !Z.eqb_eq. tauto.
Qed.

(** C8. The length of the master key is checked when the module is loaded:
    a key that decodes to 16, 24 or 32 bytes is accepted, one of any other
    length stops the process; every failure of loading is a [SystemExit];
    and a key that was accepted has one of the three lengths, so the cipher
    constructor called by the crypto helpers at request time accepts it. *)
Theorem master_key_validated_at_startup (MASTER_KEY_HEX : option str) :
  (forall hex key,
      MASTER_KEY_HEX = Some hex -> unhexlify hex = Ok key ->
      (len key = 16 \/ len key = 24 \/ len key = 32 ->
       load_master_key MASTER_KEY_HEX = Ok key)
      /\ (~ (len key = 16 \/ len key = 24 \/ len key = 32) ->
          exists msg, load_master_key MASTER_KEY_HEX = Raise (SystemExit msg)))
  /\ (forall e, load_master_key MASTER_KEY_HEX = Raise e ->
                exists msg, e = SystemExit msg)
  /\ (forall key,
        load_master_key MASTER_KEY_HEX = Ok key ->
        (len key = 16 \/ len key = 24 \/ len key = 32)
        /\ AESGCM key = Ok key).
Proof.
  split; [|split].
  - intros hex key -> Hun. split; intros Hlen.
    + apply valid_key_length_spec in Hlen.
      destruct hex as [|c hex]; [by inversion Hun; subst|].
      cbn [load_master_key]. by rewrite Hun, Hlen.
    + destruct hex as [|c hex]; [by eexists|].
      cbn [load_master_key]. rewrite Hun.
      destruct (valid_key_length key) eqn:Hv; [|by eexists].
      apply valid_key_length_spec in Hv. contradiction.
  - intros e. unfold load_master_key.
    destruct MASTER_KEY_HEX as [[|c hex]|]; try (intros [= <-]; by eexists).
    destruct (unhexlify (c :: hex)) as [key|e'].
    + destruct (valid_key_length key); cbn [negb]; [discriminate|].
      intros [= <-]. by eexists.
    + destruct (is_Exception e') eqn:He; intros [= <-]; [by eexists|].
      destruct e'; try discriminate. by eexists.
  - intros key. unfold load_master_key, AESGCM.
    destruct MASTER_KEY_HEX as [[|c hex]|]; try discriminate.
    destruct (unhexlify (c :: hex)) as [k|e']; [|by destruct (is_Exception e')].
    destruct (valid_key_length k) eqn:Hv; cbn [negb]; [|discriminate].
    intros [= <-]. rewrite Hv. split; [by apply valid_key_length_spec|done].
Qed.

(** ** The concrete instance *)

Lemma demo_aead_correct : AEAD_correct demo_aead.
Proof.
  intros key nonce data Hkey Hnonce. exists (demo_tag key nonce data :: data).
  cbn [aes_encrypt aes_decrypt demo_aead]. unfold demo_encrypt, demo_decrypt.
  rewrite Hkey, Hnonce, Z.eqb_refl. done.
Qed.

Lemma tokenize_resolve_roundtrip_demo :
  exists resp w',
    post_encrypt (aead := demo_aead) (env := demo_env) demo_pan empty_world
    = (Ok resp, w')
    /\ decrypt (aead := demo_aead) (env := demo_env)
         {| DecryptRequest.token := EncryptResponse.token resp |}
         (Some demo_admin) w'
       = (Ok {| DecryptResponse.pan := demo_pan;
                DecryptResponse.masked_pan := str_of_string "411111******1111" |},
          w').
Proof.
  destruct (tokenize_resolve_roundtrip (aead := demo_aead) (env := demo_env)
              demo_pan empty_world demo_aead_correct eq_refl eq_refl)
    as [Hrun Hback]; [vm_compute; split; discriminate|].
  destruct (Hrun eq_refl) as (resp & w' & Hok).
  exists resp, w'. split; [exact Hok|].
  refine (eq_trans (Hback resp w' Hok) _). f_equal. f_equal.
  vm_compute in Hok. by inversion Hok.
Defined.

Lemma encrypt_pan_bytes_fresh_nonce_demo :
  length (map demo_urandom (seq 0 12)) = 12%nat
  /\ fst (encrypt_pan_bytes (aead := demo_aead) (env := demo_env)
            [52; 49] empty_world)
     = Ok ([3; 10; 17; 24; 31; 38; 45; 52; 59; 66; 73; 80], [71; 52; 49]).
Proof.
  destruct (encrypt_pan_bytes_fresh_nonce (aead := demo_aead) (env := demo_env)
              [52; 49] empty_world eq_refl) as (Hlen & Hout & _).
  split; [exact Hlen|]. rewrite Hout. reflexivity.
Defined.

Lemma encrypt_rejects_invalid_pan_demo :
  exists e,
    post_encrypt (aead := demo_aead) (env := demo_env)
      (str_of_string "abcd1234") empty_world = (Raise e, empty_world)
    /\ InvalidPanError e = true.
Proof.
  apply (encrypt_rejects_invalid_pan (aead := demo_aead) (env := demo_env)
           (str_of_string "abcd1234") empty_world).
  right. left. exists 97. split; [left; reflexivity|].
  split; [lia | reflexivity].
Defined.

(** C3 as the specification words it fails: the handler's test is
    [str.isdigit], which accepts digits that are not ['0'..'9']; twelve
    superscript twos are tokenized and a row is written. *)
Lemma encrypt_accepts_unicode_digits :
  forallb ascii_isdigit superscript_pan = false
  /\ (exists resp w',
        post_encrypt (aead := demo_aead) (env := demo_env)
          superscript_pan empty_world = (Ok resp, w')
        /\ db w' !! EncryptResponse.token resp
           <> db empty_world !! EncryptResponse.token resp)
  /\ ~ refuses_all_but_ascii_digits (aead := demo_aead) (env := demo_env)
         superscript_pan empty_world.
Proof.
  split; [reflexivity|]. split.
  - eexists. eexists. split; [vm_compute; reflexivity|].
    vm_compute. discriminate.
  - intros Hclaim. destruct Hclaim as (e & He & _); [by left|].
    vm_compute in He. discriminate.
Qed.

Lemma get_metadata_masked_only_demo :
  fst (get_metadata demo_token (world_with (demo_row demo_pan) 36))
  = fst (get_metadata demo_token
           (world_with (demo_row (str_of_string "4111112222221111")) 36)).
Proof.
  apply (get_metadata_masked_only demo_token
           (world_with (demo_row demo_pan) 36)
           (world_with (demo_row (str_of_string "4111112222221111")) 36)
           (demo_row demo_pan)
           (demo_row (str_of_string "4111112222221111")));
    reflexivity.
Defined.

Lemma unknown_token_not_found_demo :
  decrypt (aead := demo_aead) (env := demo_env)
    {| DecryptRequest.token := str_of_string "does-not-exist" |}
    (Some demo_admin) empty_world
  = (Raise TokenNotFoundError, empty_world)
  /\ get_metadata (str_of_string "does-not-exist") empty_world
     = (Raise TokenNotFoundError, empty_world).
Proof.
  destruct (unknown_token_not_found (aead := demo_aead) (env := demo_env)
              (str_of_string "does-not-exist") empty_world)
    as (Habsent & _).
  exact (Habsent eq_refl eq_refl).
Defined.

(** C6 as the specification words it fails: a token that is one lone
    surrogate is absent from the empty store, yet the lookup raises while
    binding it and the request is answered 500, not 404. *)
Lemma unknown_surrogate_token_raises :
  db empty_world !! surrogate_token = None
  /\ decrypt (aead := demo_aead) (env := demo_env)
       {| DecryptRequest.token := surrogate_token |} (Some demo_admin)
       empty_world
     = (Raise UnicodeEncodeError, empty_world)
  /\ http_status UnicodeEncodeError = 500
  /\ ~ absent_token_is_not_found (aead := demo_aead) (env := demo_env)
         surrogate_token empty_world.
Proof.
  split; [reflexivity|]. split; [reflexivity|]. split; [reflexivity|].
  intros Hclaim. destruct (Hclaim eq_refl) as [Hd _].
  vm_compute in Hd. discriminate.
Qed.

Lemma decrypt_failure_is_generic_demo :
  decrypt (aead := demo_aead) (env := demo_env)
    {| DecryptRequest.token := demo_token |} (Some demo_admin) tampered_world
  = (Raise DecryptionError, tampered_world).
Proof.
  exact (decrypt_failure_is_generic (aead := demo_aead) (env := demo_env)
           demo_token tampered_world (tamper (demo_row demo_pan)) InvalidTag
           eq_refl eq_refl eq_refl eq_refl).
Defined.

Lemma encrypt_duplicate_token_fails_demo :
  fst (post_encrypt (aead := demo_aead) (env := demo_env)
         demo_pan collision_world) = Raise IntegrityError
  /\ db (snd (post_encrypt (aead := demo_aead) (env := demo_env)
                demo_pan collision_world)) = db collision_world.
Proof.
  destruct (encrypt_duplicate_token_fails (aead := demo_aead) (env := demo_env)
              demo_pan collision_world demo_aead_correct eq_refl eq_refl)
    as (Hraise & _ & Hdb & _).
  - vm_compute. split; discriminate.
  - vm_compute. discriminate.
  - exact (conj Hraise Hdb).
Defined.

(** The retry the specification describes is not what the code does: with
    the first token taken and the second free, the request fails. *)
Lemma encrypt_does_not_regenerate :
  ~ regenerates_on_duplicate (aead := demo_aead) (env := demo_env)
      collision_world demo_pan.
Proof.
  intros Hretry.
  destruct Hretry as (resp & w' & Hok & _).
  - vm_compute. discriminate.
  - reflexivity.
  - vm_compute in Hok. discriminate.
Qed.

Lemma master_key_validated_at_startup_demo :
  load_master_key (Some demo_key_hex) = Ok demo_key
  /\ AESGCM demo_key = Ok demo_key.
Proof.
  destruct (master_key_validated_at_startup (Some demo_key_hex))
    as (Hload & _ & Hcall).
  destruct (Hload demo_key_hex demo_key eq_refl eq_refl) as [Hok _].
  assert (H : load_master_key (Some demo_key_hex) = Ok demo_key).
  { apply Hok. right. right. reflexivity. }
  split; [exact H|]. exact (proj2 (Hcall demo_key H)).
Defined.

(** The examples of the specification. *)

Example load_master_key_10_bytes :
  load_master_key (Some (str_of_string "00010203040506070809"))
  = Raise (SystemExit "MASTER_KEY must be 16, 24, or 32 bytes for AES-GCM").
Proof. reflexivity. Qed.

Example post_encrypt_too_short :
  post_encrypt (aead := demo_aead) (env := demo_env)
    (str_of_string "1234") empty_world
  = (Raise RequestValidationError, empty_world).
Proof. reflexivity. Qed.

Example post_encrypt_masks_demo_pan :
  fst (post_encrypt (aead := demo_aead) (env := demo_env) demo_pan empty_world)
  = Ok {| EncryptResponse.token := demo_token;
          EncryptResponse.masked_pan := str_of_string "411111******1111" |}.
Proof. reflexivity. Qed.


(** ** Further properties of the endpoints *)

Section EndpointFacts.

Context {aead : AEAD} {env : Env}.

(** Every way a request to [/encrypt] can end: it raises and leaves the
    table as it was, or it passed both checks, drew a token that was free,
    and added exactly the row for it. *)
Lemma post_encrypt_cases (pan : str) (w : World) :
  (exists e, fst (post_encrypt pan w) = Raise e
             /\ db (snd (post_encrypt pan w)) = db w
             /\ (urandom_pos w <= urandom_pos (snd (post_encrypt pan w)))%nat)
  \/ (exists pan_bytes ct,
        12 <= len pan <= 19
        /\ isdigit pan = true
        /\ utf8_encode pan = Ok pan_bytes
        /\ valid_key_length MASTER_KEY = true
        /\ aes_encrypt MASTER_KEY (next_nonce w) pan_bytes None = Ok ct
        /\ db w !! next_token w = None
        /\ post_encrypt pan w
           = (Ok {| EncryptResponse.token := next_token w;
                    EncryptResponse.masked_pan := masked_of pan |},
              {| db := <[next_token w :=
                          {| Row.token := next_token w;
                             Row.ciphertext := ct;
                             Row.nonce := next_nonce w;
                             Row.pan_length := len pan;
                             Row.first6 := firstn 6 pan;
                             Row.last4 := skipn (length pan - 4) pan;
                             Row.created_at := utcnow_isoformat (clock_pos w) |}]>
                        (db w);
                 urandom_pos := (urandom_pos w + 12 + 24)%nat;
                 clock_pos := S (clock_pos w) |})).
Proof.
  remember (post_encrypt pan w) as out eqn:Hout.
  unfold post_encrypt, EncryptRequest.validate in Hout.
  destruct (encodable pan) eqn:Htext; cbn [andb] in Hout;
    [|left; subst out; by exists RequestValidationError].
  destruct (in_range 12 19 (len pan)) eqn:Hlen;
    [|left; subst out; by exists RequestValidationError].
  apply in_range_true in Hlen.
  unfold bind at 1 in Hout. unfold lift at 1 in Hout. unfold encrypt in Hout.
  cbn [EncryptRequest.pan] in Hout.
  destruct (isdigit pan) eqn:Hdig; cbn [negb] in Hout;
    [|left; subst out; eexists; cbn; repeat split; lia].
  unfold bind at 1 in Hout. unfold lift at 1 in Hout.
  destruct (utf8_encode pan) as [bs|e] eqn:Hbs;
    [|left; subst out; eexists; cbn; repeat split; lia].
  unfold encrypt_pan_bytes, token_urlsafe, token_bytes, bind, lift, ret,
    AESGCM in Hout.
  destruct (valid_key_length MASTER_KEY) eqn:Hkey;
    [|left; subst out; eexists; cbn; repeat split; lia].
  fold (next_nonce w) in Hout.
  destruct (aes_encrypt MASTER_KEY (next_nonce w) bs None) as [ct|e] eqn:Henc;
    [|left; subst out; eexists; cbn; repeat split; lia].
  cbn [db urandom_pos clock_pos] in Hout. fold (next_token w) in Hout.
  rewrite save_token_run in Hout. cbv zeta in Hout.
  cbn [db urandom_pos clock_pos] in Hout.
  rewrite next_token_encodable in Hout.
  rewrite (proj2 (in_range_true (- 2 ^ 63) (2 ^ 63 - 1) (len pan))) in Hout
    by lia.
  unfold encodable in Htext.
  unfold encodable at 1 2 in Hout.
  rewrite (forallb_firstn _ _ _ Htext), (forallb_skipn _ _ _ Htext) in Hout.
  cbn [negb andb] in Hout.
  destruct (db w !! next_token w) eqn:Hfresh;
    [left; subst out; eexists; cbn; repeat split; lia|].
  rewrite mask_pan_slices in Hout.
  right. exists bs, ct. by subst out.
Qed.

(** What the privileged [decrypt] does, case by case. *)
Lemma decrypt_authorized_run (req : DecryptRequest.t) (w : World) :
  decrypt req (Some ADMIN_API_KEY) w
  = (if encodable (DecryptRequest.token req) then
       match db w !! DecryptRequest.token req with
       | None => Raise TokenNotFoundError
       | Some r =>
           match
             result_bind
               (result_bind (AESGCM MASTER_KEY)
                  (fun aes =>
                     aes_decrypt aes (Row.nonce r) (Row.ciphertext r) None))
               utf8_decode
           with
           | Ok pan =>
               result_map
                 (fun masked =>
                    {| DecryptResponse.pan := pan;
                       DecryptResponse.masked_pan := masked |})
                 (mask_pan (Row.first6 r) (Row.last4 r) (Row.pan_length r))
           | Raise e =>
               if is_Exception e then Raise DecryptionError else Raise e
           end
       end
     else Raise UnicodeEncodeError, w).
Proof.
  unfold decrypt, bind, require_admin, ret, raise.
  rewrite decide_True by done. rewrite get_token_record_run.
  destruct (encodable (DecryptRequest.token req)); [|reflexivity].
  destruct (db w !! DecryptRequest.token req) as [r|]; [|reflexivity].
  unfold decrypt_pan_bytes, try_except, bind, lift, ret, raise.
  destruct (AESGCM MASTER_KEY) as [aes|e0]; cbn [result_bind];
    [|by destruct (is_Exception e0)].
  destruct (aes_decrypt aes (Row.nonce r) (Row.ciphertext r) None)
    as [pt|e1]; cbn [result_bind]; [|by destruct (is_Exception e1)].
  destruct (utf8_decode pt) as [pan|e2]; [|by destruct (is_Exception e2)].
  by destruct (mask_pan _ _ _).
Qed.

Lemma decrypt_world (req : DecryptRequest.t) (api_key : option str)
    (w : World) :
  snd (decrypt req api_key w) = w.
Proof.
  destruct (decide (api_key = Some ADMIN_API_KEY)) as [->|Hne].
  - by rewrite decrypt_authorized_run.
  - unfold decrypt, bind, require_admin, raise. by rewrite decide_False.
Qed.

Lemma get_metadata_world (token : str) (w : World) :
  snd (get_metadata token w) = w.
Proof. by rewrite get_metadata_run. Qed.

(** X1. A request to [/decrypt] whose [X-ADMIN-API-KEY] header is missing
    or differs from the configured key is answered 401 before anything is
    looked up: the answer is the same whatever the token and whatever the
    table holds, and the world is left as it was. With the configured key
    in the header the answer is never that 401. *)
Theorem decrypt_requires_admin_key (req : DecryptRequest.t)
    (api_key : option str) (w : World) :
  (api_key <> Some ADMIN_API_KEY ->
   decrypt req api_key w
   = (Raise (HTTPException 401 "Invalid admin API key."), w))
  /\ (fst (decrypt req api_key w)
      = Raise (HTTPException 401 "Invalid admin API key.")
      <-> api_key <> Some ADMIN_API_KEY).
Proof.
  assert (Hno : api_key <> Some ADMIN_API_KEY ->
                decrypt req api_key w
                = (Raise (HTTPException 401 "Invalid admin API key."), w)).
  { intros Hkey. unfold decrypt, bind, require_admin, raise.
    by rewrite decide_False. }
  split; [exact Hno|]. split; [|intros Hkey; by rewrite (Hno Hkey)].
  intros H401 ->. revert H401.
  rewrite decrypt_authorized_run. cbn [fst].
  destruct (encodable (DecryptRequest.token req)); [|discriminate].
  destruct (db w !! DecryptRequest.token req) as [r|]; [|discriminate].
  destruct (result_bind _ utf8_decode) as [pan|e].
  - destruct (mask_pan _ _ _) as [m|e] eqn:Hm; [discriminate|].
    by rewrite (mask_pan_raises _ _ _ _ Hm).
  - by destruct e.
Qed.

(** X2. Insert then look up: [save_token] under a token that is free
    succeeds when the parameters can be bound (the token and the two kept
    parts are text without a lone surrogate, the length fits SQLite's
    64-bit INTEGER); [get_token_record] then returns the columns that were
    given and the clock reading, the lookup of every other token gives what
    it gave before, and the table has one row more. A parameter that
    cannot be bound makes [save_token] raise and write nothing. *)
Theorem save_token_then_get_token_record (token : str)
    (nonce ciphertext : bytes) (pan_length : Z) (first6 last4 : str)
    (w : World) :
  let out := save_token token nonce ciphertext pan_length first6 last4 w in
  (encodable token = true ->
   - 2 ^ 63 <= pan_length <= 2 ^ 63 - 1 ->
   encodable first6 = true ->
   encodable last4 = true ->
   db w !! token = None ->
   fst out = Ok tt
   /\ fst (get_token_record token (snd out))
      = Ok (Some {| Row.token := token;
                    Row.ciphertext := ciphertext;
                    Row.nonce := nonce;
                    Row.pan_length := pan_length;
                    Row.first6 := first6;
                    Row.last4 := last4;
                    Row.created_at := utcnow_isoformat (clock_pos w) |})
   /\ (forall other, other <> token ->
         fst (get_token_record other (snd out))
         = fst (get_token_record other w))
   /\ size (db (snd out)) = S (size (db w)))
  /\ (encodable token = false \/ ~ (- 2 ^ 63 <= pan_length <= 2 ^ 63 - 1)
      \/ encodable first6 = false \/ encodable last4 = false ->
      (fst out = Raise UnicodeEncodeError \/ fst out = Raise OverflowError)
      /\ db (snd out) = db w).
Proof.
  cbv zeta. rewrite save_token_run. cbv zeta. split.
  - intros Htok Hint Hf Hl Hfresh.
    rewrite Htok, Hf, Hl, (proj2 (in_range_true _ _ _) Hint), Hfresh.
    cbn [negb andb fst snd]. rewrite !get_token_record_run, Htok.
    cbn [fst db]. repeat split.
    + by rewrite lookup_insert_eq.
    + intros other Hne. rewrite !get_token_record_run. cbn [fst db].
      by rewrite lookup_insert_ne.
    + by apply map_size_insert_None.
  - intros Hbad.
    destruct (encodable token); cbn [negb]; [|by auto].
    destruct (in_range _ _ pan_length) eqn:Hint; cbn [negb]; [|by auto].
    apply in_range_true in Hint.
    destruct (encodable first6); cbn [andb negb]; [|by auto].
    destruct (encodable last4); cbn [negb]; [|by auto].
    destruct Hbad as [?|[?|[?|?]]]; done.
Qed.

(** X3. The two lookup endpoints are read-only: whatever the request and
    however it ends (answer, 401, 404, 500 or an exception that escapes),
    [decrypt] and [get_metadata] leave the table, the random source and the
    clock as they were. *)
Theorem resolve_is_read_only (req : DecryptRequest.t) (api_key : option str)
    (token : str) (w : World) :
  snd (decrypt req api_key w) = w /\ snd (get_metadata token w) = w.
Proof. split; [apply decrypt_world | apply get_metadata_world]. Qed.

(** X4. A request to [/encrypt], however it ends, keeps every row the table
    held: no row is changed or removed, and the only token that can be new
    afterwards is the one the request drew. *)
Theorem post_encrypt_keeps_rows (pan : str) (w : World) (token : str) :
  let w' := snd (post_encrypt pan w) in
  (forall r, db w !! token = Some r -> db w' !! token = Some r)
  /\ (db w' !! token = db w !! token
      \/ (token = next_token w /\ db w !! token = None)).
Proof.
  cbv zeta.
  destruct (post_encrypt_cases pan w)
    as [(e & _ & Hdb & _) | (bs & ct & _ & _ & _ & _ & _ & Hfresh & Hrun)].
  - rewrite Hdb. auto.
  - rewrite Hrun. cbn [snd db].
    destruct (decide (token = next_token w)) as [->|Hne].
    + split; [intros r Hr; congruence | right; done].
    + rewrite lookup_insert_ne by done. auto.
Qed.

(** X5. After a request to [/encrypt] has succeeded, the metadata lookup of
    the token it returned succeeds and gives that token, the very masked PAN
    the request was answered with, and the clock reading taken at the
    insert. No assumption on the cipher is needed. *)
Theorem get_metadata_after_encrypt (pan : str) (w w' : World)
    (resp : EncryptResponse.t) :
  post_encrypt pan w = (Ok resp, w') ->
  get_metadata (EncryptResponse.token resp) w'
  = (Ok {| TokenMetadata.token := EncryptResponse.token resp;
           TokenMetadata.masked_pan := EncryptResponse.masked_pan resp;
           TokenMetadata.created_at := utcnow_isoformat (clock_pos w) |},
     w').
Proof.
  intros Hok.
  destruct (post_encrypt_cases pan w)
    as [(e & He & _ & _) | (bs & ct & _ & _ & _ & _ & _ & _ & Hrun)];
    [rewrite Hok in He; discriminate|].
  rewrite Hok in Hrun. inversion Hrun as [[Hr Hw]].
  rewrite get_metadata_run.
  cbn [EncryptResponse.token EncryptResponse.masked_pan db].
  rewrite next_token_encodable, lookup_insert_eq.
  cbn [Row.first6 Row.last4 Row.pan_length Row.created_at].
  by rewrite mask_pan_slices.
Qed.

(** What the privileged [decrypt] answers for a stored row is decided by
    the row alone. *)
Lemma decrypt_stored_row (token : str) (w : World) (r : Row.t)
    (pan_bytes : bytes) (pan masked : str) :
  valid_key_length MASTER_KEY = true ->
  encodable token = true ->
  db w !! token = Some r ->
  aes_decrypt MASTER_KEY (Row.nonce r) (Row.ciphertext r) None = Ok pan_bytes ->
  utf8_decode pan_bytes = Ok pan ->
  mask_pan (Row.first6 r) (Row.last4 r) (Row.pan_length r) = Ok masked ->
  decrypt {| DecryptRequest.token := token |} (Some ADMIN_API_KEY) w
  = (Ok {| DecryptResponse.pan := pan;
           DecryptResponse.masked_pan := masked |}, w).
Proof.
  intros Hkey Htok Hrow Hdec Hutf Hmask.
  rewrite decrypt_authorized_run. cbn [DecryptRequest.token].
  rewrite Htok, Hrow, (AESGCM_valid_key _ Hkey). cbn [result_bind].
  by rewrite Hdec, Hmask; cbn [result_bind]; rewrite Hutf.
Qed.

Lemma evolves_keeps_rows (w w' : World) (token : str) (r : Row.t) :
  evolves w w' -> db w !! token = Some r -> db w' !! token = Some r.
Proof.
  intros Hev Hrow. induction Hev as [|w' pan _ IH|w' req k _ IH|w' t _ IH].
  - exact Hrow.
  - destruct (post_encrypt_cases pan w')
      as [(e & _ & Hdb & _) | (bs & ct & _ & _ & _ & _ & _ & Hfresh & Hrun)].
    + by rewrite Hdb.
    + rewrite Hrun. cbn [snd db].
      rewrite lookup_insert_ne; [exact IH | congruence].
  - by rewrite decrypt_world.
  - by rewrite get_metadata_world.
Qed.

(** X6. No two successful requests to [/encrypt] ever return the same
    token, whatever the PANs (the same PAN twice included) and whatever
    requests were served in between: the later one can only succeed on a
    token the table does not hold, and the table still holds the earlier
    one. *)
Theorem tokens_never_repeat (pan1 pan2 : str) (w w1 w2 w3 : World)
    (resp1 resp2 : EncryptResponse.t) :
  post_encrypt pan1 w = (Ok resp1, w1) ->
  evolves w1 w2 ->
  post_encrypt pan2 w2 = (Ok resp2, w3) ->
  EncryptResponse.token resp1 <> EncryptResponse.token resp2.
Proof.
  intros H1 Hev H2.
  destruct (post_encrypt_cases pan1 w)
    as [(e & He & _ & _) | (bs1 & ct1 & _ & _ & _ & _ & _ & _ & Hrun1)];
    [rewrite H1 in He; discriminate|].
  destruct (post_encrypt_cases pan2 w2)
    as [(e & He & _ & _) | (bs2 & ct2 & _ & _ & _ & _ & _ & Hfresh2 & Hrun2)];
    [rewrite H2 in He; discriminate|].
  rewrite H1 in Hrun1. rewrite H2 in Hrun2.
  inversion Hrun1 as [[Hr1 Hw1]]. inversion Hrun2 as [[Hr2 Hw2]].
  cbn [EncryptResponse.token]. intros Heq.
  rewrite <- Heq in Hfresh2.
  erewrite (evolves_keeps_rows w1 w2) in Hfresh2; [discriminate|exact Hev|].
  rewrite Hw1. cbn [db]. apply lookup_insert_eq.
Qed.

(** X7. The round trip lasts: once a request to [/encrypt] has returned a
    token, then after any further requests, of any kind and in any number,
    the privileged [decrypt] of that token still returns the PAN that was
    given and the masked form that was answered. Assumed: the cipher
    decrypts what it encrypted. *)
Theorem roundtrip_persists (pan : str) (w w1 w2 : World)
    (resp : EncryptResponse.t) :
  AEAD_correct aead ->
  post_encrypt pan w = (Ok resp, w1) ->
  evolves w1 w2 ->
  decrypt {| DecryptRequest.token := EncryptResponse.token resp |}
    (Some ADMIN_API_KEY) w2
  = (Ok {| DecryptResponse.pan := pan;
           DecryptResponse.masked_pan := EncryptResponse.masked_pan resp |},
     w2).
Proof.
  intros Haead Hok Hev.
  destruct (post_encrypt_cases pan w)
    as [(e & He & _ & _) | (bs & ct & _ & _ & Hbs & Hkey & Henc & _ & Hrun)];
    [rewrite Hok in He; discriminate|].
  rewrite Hok in Hrun. inversion Hrun as [[Hr Hw]].
  destruct (Haead MASTER_KEY (next_nonce w) bs Hkey (length_next_nonce w))
    as (ct' & Henc' & Hdec).
  rewrite Henc in Henc'. inversion Henc'; subst ct'.
  subst resp. cbn [EncryptResponse.token EncryptResponse.masked_pan].
  assert (Hrow : db w1 !! next_token w
                 = Some {| Row.token := next_token w;
                           Row.ciphertext := ct;
                           Row.nonce := next_nonce w;
                           Row.pan_length := len pan;
                           Row.first6 := firstn 6 pan;
                           Row.last4 := skipn (length pan - 4) pan;
                           Row.created_at := utcnow_isoformat (clock_pos w) |}).
  { rewrite Hw. cbn [db]. apply lookup_insert_eq. }
  exact (decrypt_stored_row _ w2 _ bs pan _ Hkey (next_token_encodable w)
           (evolves_keeps_rows w1 w2 _ _ Hev Hrow) Hdec
           (utf8_decode_encode _ _ Hbs) (mask_pan_slices pan)).
Qed.

(** X9. In the answer of a successful request to [/encrypt] the masked PAN
    has the length of the PAN and is the PAN with the positions from the
    seventh to the fifth from last replaced by asterisks: the first six and
    the last four characters are those of the PAN, nothing else of it is
    shown. *)
Theorem masked_pan_positions (pan : str) (w w' : World)
    (resp : EncryptResponse.t) :
  post_encrypt pan w = (Ok resp, w') ->
  len (EncryptResponse.masked_pan resp) = len pan
  /\ forall i : nat,
       (i < length pan)%nat ->
       EncryptResponse.masked_pan resp !! i
       = if decide (6 <= i < length pan - 4)%nat then Some star else pan !! i.
Proof.
  intros Hok.
  destruct (post_encrypt_cases pan w)
    as [(e & He & _ & _) | (bs & ct & Hlen & _ & _ & _ & _ & _ & Hrun)];
    [rewrite Hok in He; discriminate|].
  rewrite Hok in Hrun. inversion Hrun as [[Hr Hw]].
  cbn [EncryptResponse.masked_pan]. clear Hrun Hr Hw Hok.
  unfold len in Hlen.
  assert (H6 : length (firstn 6 pan) = 6%nat) by (rewrite length_take; lia).
  assert (H4 : length (skipn (length pan - 4) pan) = 4%nat)
    by (rewrite length_drop; lia).
  unfold masked_of. cbv zeta. unfold len. rewrite H6, H4.
  replace (Z.to_nat (Z.of_nat (length pan) - Z.of_nat 6 - Z.of_nat 4))
    with (length pan - 10)%nat by lia.
  split.
  - rewrite !length_app, repeat_length, H6, H4. lia.
  - intros i Hi. case_decide as Hmid.
    + rewrite lookup_app_r by lia. rewrite H6.
      rewrite lookup_app_l by (rewrite repeat_length; lia).
      apply lookup_repeat. lia.
    + destruct (decide (i < 6)%nat) as [Hlo|Hhi].
      * rewrite lookup_app_l by lia. by apply lookup_take_lt.
      * rewrite lookup_app_r by lia. rewrite H6.
        rewrite lookup_app_r by (rewrite repeat_length; lia).
        rewrite repeat_length, lookup_drop. f_equal. lia.
Qed.

(** X10. When the random source yields bytes, the token a successful
    request to [/encrypt] returns has 32 characters, each a letter, a
    digit, a hyphen or an underscore. *)
Theorem token_is_urlsafe (pan : str) (w w' : World)
    (resp : EncryptResponse.t) :
  (forall i, is_byte (urandom i) = true) ->
  post_encrypt pan w = (Ok resp, w') ->
  len (EncryptResponse.token resp) = 32
  /\ forallb is_urlsafe_char (EncryptResponse.token resp) = true.
Proof.
  intros Hbytes Hok.
  destruct (post_encrypt_cases pan w)
    as [(e & He & _ & _) | (bs & ct & _ & _ & _ & _ & _ & _ & Hrun)];
    [rewrite Hok in He; discriminate|].
  rewrite Hok in Hrun. inversion Hrun as [[Hr Hw]].
  cbn [EncryptResponse.token]. unfold next_token. split.
  - unfold len. rewrite length_urlsafe_b64encode_nopad.
    rewrite length_map, length_seq. reflexivity.
  - apply urlsafe_b64encode_nopad_alphabet.
    apply forallb_forall. intros b Hb.
    apply in_map_iff in Hb as (i & <- & _). apply Hbytes.
Qed.

Lemma post_encrypt_rows_ok (pan : str) (w : World) :
  (forall token r, db w !! token = Some r -> row_ok token r) ->
  forall token r,
    db (snd (post_encrypt pan w)) !! token = Some r -> row_ok token r.
Proof.
  intros Hinv token r.
  destruct (post_encrypt_cases pan w)
    as [(e & _ & Hdb & _) | (bs & ct & Hlen & _ & _ & _ & _ & _ & Hrun)].
  - rewrite Hdb. apply Hinv.
  - rewrite Hrun. cbn [snd db].
    destruct (decide (token = next_token w)) as [->|Hne].
    + rewrite lookup_insert_eq. intros [= <-]. unfold row_ok, len in *.
      cbn [Row.token Row.nonce Row.pan_length Row.first6 Row.last4].
      rewrite length_next_nonce, length_take, length_drop.
      repeat split; lia.
    + rewrite lookup_insert_ne by done. apply Hinv.
Qed.

Lemma reachable_rows_ok (w : World) :
  reachable w -> forall token r, db w !! token = Some r -> row_ok token r.
Proof.
  intros (pos & clk & Hev).
  induction Hev as [|w' pan _ IH|w' req k _ IH|w' t _ IH].
  - intros token r. cbn [init_db db]. by rewrite lookup_empty.
  - by apply post_encrypt_rows_ok.
  - by rewrite decrypt_world.
  - by rewrite get_metadata_world.
Qed.

Lemma row_ok_mask_pan (token : str) (r : Row.t) :
  row_ok token r ->
  mask_pan (Row.first6 r) (Row.last4 r) (Row.pan_length r)
  = Ok (Row.first6 r ++ repeat star (Z.to_nat (Row.pan_length r - 10))
          ++ Row.last4 r).
Proof.
  intros (_ & _ & Hlen & H6 & H4).
  rewrite mask_pan_ok by lia. rewrite H6, H4.
  by replace (Row.pan_length r - 6 - 4) with (Row.pan_length r - 10) by lia.
Qed.

(** X11. An invariant of the table: starting from the empty table that
    [init_db] creates, after any sequence of requests every row sits under
    its own token, has a twelve-byte nonce, a length between 12 and 19, a
    six-character first part and a four-character last part; so the masked
    PAN computed from a row has exactly the recorded length, with
    [pan_length - 10] asterisks, at least two. *)
Theorem stored_rows_well_formed (w : World) (token : str) (r : Row.t) :
  reachable w ->
  db w !! token = Some r ->
  let masked :=
    Row.first6 r ++ repeat star (Z.to_nat (Row.pan_length r - 10))
      ++ Row.last4 r in
  row_ok token r
  /\ mask_pan (Row.first6 r) (Row.last4 r) (Row.pan_length r) = Ok masked
  /\ len masked = Row.pan_length r
  /\ 2 <= Row.pan_length r - 10.
Proof.
  intros Hreach Hrow masked.
  pose proof (reachable_rows_ok w Hreach token r Hrow) as Hok.
  split; [exact Hok|]. split; [by apply (row_ok_mask_pan token)|].
  destruct Hok as (_ & _ & Hlen & H6 & H4). subst masked.
  split; [|lia].
  rewrite !len_app, len_repeat, H6, H4. lia.
Qed.

(** X8. In any world the service can reach, with the configured key in the
    header and a cipher whose failures are ordinary exceptions, [decrypt]
    of a token that is text (no lone surrogate) has three answers and no
    other: the record, "Token not found" (404), or "Decryption failed"
    (500); no exception of the cipher, of the key check or of the decoding
    reaches the caller. A token holding a lone surrogate is the one other
    case: the lookup raises while binding it, and [UnicodeEncodeError]
    escapes (500). *)
Theorem authorized_decrypt_outcomes (req : DecryptRequest.t) (w : World) :
  reachable w ->
  (forall key nonce data aad e,
      aes_decrypt key nonce data aad = Raise e -> is_Exception e = true) ->
  (encodable (DecryptRequest.token req) = true ->
   (exists resp, fst (decrypt req (Some ADMIN_API_KEY) w) = Ok resp)
   \/ fst (decrypt req (Some ADMIN_API_KEY) w) = Raise TokenNotFoundError
   \/ fst (decrypt req (Some ADMIN_API_KEY) w) = Raise DecryptionError)
  /\ (encodable (DecryptRequest.token req) = false ->
      fst (decrypt req (Some ADMIN_API_KEY) w) = Raise UnicodeEncodeError).
Proof.
  intros Hreach Hexn. rewrite decrypt_authorized_run. cbn [fst].
  split; intros ->; [|reflexivity].
  destruct (db w !! DecryptRequest.token req) as [r|] eqn:Hrow;
    [|by right; left].
  rewrite (row_ok_mask_pan _ r (reachable_rows_ok w Hreach _ r Hrow)).
  unfold AESGCM.
  destruct (valid_key_length MASTER_KEY); cbn [result_bind];
    [|by right; right].
  destruct (aes_decrypt MASTER_KEY (Row.nonce r) (Row.ciphertext r) None)
    as [pt|e] eqn:Hdec; cbn [result_bind].
  - destruct (utf8_decode pt) as [pan|e] eqn:Hutf; [left; by eexists|].
    right; right. by rewrite (utf8_decode_raises _ _ Hutf).
  - right; right. by rewrite (Hexn _ _ _ _ _ Hdec).
Qed.

Lemma evolves_urandom_pos (w w' : World) :
  evolves w w' -> (urandom_pos w <= urandom_pos w')%nat.
Proof.
  induction 1 as [|w' pan _ IH|w' req k _ IH|w' t _ IH].
  - done.
  - destruct (post_encrypt_cases pan w')
      as [(e & _ & _ & Hpos) | (bs & ct & _ & _ & _ & _ & _ & _ & Hrun)];
      [lia|]. rewrite Hrun. cbn [snd urandom_pos]. lia.
  - by rewrite decrypt_world.
  - by rewrite get_metadata_world.
Qed.

(** X12. The random source is only read forwards: a successful request to
    [/encrypt] takes its nonce from the twelve positions at the cursor and
    its token from the next twenty-four, and no later request, of any kind,
    reads those thirty-six positions again; the nonce of every later
    request comes from positions beyond them. *)
Theorem random_bytes_never_reread (pan : str) (w w1 w2 : World)
    (resp : EncryptResponse.t) :
  post_encrypt pan w = (Ok resp, w1) ->
  evolves w1 w2 ->
  (exists r, db w2 !! EncryptResponse.token resp = Some r
             /\ Row.nonce r = map urandom (seq (urandom_pos w) 12))
  /\ EncryptResponse.token resp
     = urlsafe_b64encode_nopad (map urandom (seq (urandom_pos w + 12) 24))
  /\ (urandom_pos w + 36 <= urandom_pos w2)%nat
  /\ next_nonce w2 = map urandom (seq (urandom_pos w2) 12).
Proof.
  intros Hok Hev.
  destruct (post_encrypt_cases pan w)
    as [(e & He & _ & _) | (bs & ct & _ & _ & _ & _ & _ & _ & Hrun)];
    [rewrite Hok in He; discriminate|].
  rewrite Hok in Hrun. inversion Hrun as [[Hr Hw]].
  cbn [EncryptResponse.token].
  split; [|split; [reflexivity|split; [|reflexivity]]].
  - eexists. split.
    + apply (evolves_keeps_rows w1 w2 _ _ Hev).
      rewrite Hw. cbn [db]. apply lookup_insert_eq.
    + reflexivity.
  - pose proof (evolves_urandom_pos w1 w2 Hev) as Hpos.
    rewrite Hw in Hpos. cbn [urandom_pos] in Hpos. lia.
Qed.

(** X13. The two lookup endpoints agree: whenever the privileged
    [decrypt] answers with a record, the metadata lookup of the same token,
    in the same world, succeeds and shows the same masked PAN. *)
Theorem decrypt_and_metadata_agree (req : DecryptRequest.t)
    (api_key : option str) (w w' : World) (resp : DecryptResponse.t) :
  decrypt req api_key w = (Ok resp, w') ->
  exists md,
    get_metadata (DecryptRequest.token req) w = (Ok md, w)
    /\ TokenMetadata.masked_pan md = DecryptResponse.masked_pan resp
    /\ TokenMetadata.token md = DecryptRequest.token req.
Proof.
  destruct (decide (api_key = Some ADMIN_API_KEY)) as [->|Hne];
    [|unfold decrypt, bind, require_admin, raise;
      by rewrite decide_False].
  rewrite decrypt_authorized_run, get_metadata_run.
  destruct (encodable (DecryptRequest.token req)); [|discriminate].
  destruct (db w !! DecryptRequest.token req) as [r|]; [|discriminate].
  destruct (result_bind _ utf8_decode) as [pan|e];
    [|by destruct (is_Exception e)].
  destruct (mask_pan _ _ _) as [masked|e]; [|discriminate].
  intros [= <- <-]. by eexists.
Qed.

(** X14. Which refusal an invalid PAN gets: a PAN shorter than 12 or longer
    than 19 characters, or one holding a lone surrogate, is refused by the
    request model (422) whether or not it is made of digits; one of an
    accepted length, without lone surrogate, that is not all digits is
    refused by the handler with "PAN must contain only digits" (400). In
    both cases the world is left as it was. *)
Theorem invalid_pan_status (pan : str) (w : World) :
  (~ (12 <= len pan <= 19) \/ encodable pan = false ->
   post_encrypt pan w = (Raise RequestValidationError, w))
  /\ (12 <= len pan <= 19 -> encodable pan = true -> isdigit pan = false ->
      post_encrypt pan w
      = (Raise (HTTPException 400 "PAN must contain only digits"), w)).
Proof.
  unfold post_encrypt, EncryptRequest.validate, bind, lift. split.
  - intros Hbad. destruct (encodable pan); cbn [andb]; [|done].
    destruct (in_range 12 19 (len pan)) eqn:Hr; [|done].
    apply in_range_true in Hr. by destruct Hbad.
  - intros Hlen Htext Hdig.
    rewrite Htext, (proj2 (in_range_true 12 19 (len pan)) Hlen).
    unfold encrypt. cbn [andb EncryptRequest.pan]. by rewrite Hdig.
Qed.

(** X15. A request to [/encrypt] is all or nothing on the table: when it
    succeeds the table has exactly one row more, the one under the token it
    returned; when it fails, at whatever step, the table is what it was, so
    no half-written row is ever left behind. *)
Theorem post_encrypt_all_or_nothing (pan : str) (w : World) :
  (forall resp w', post_encrypt pan w = (Ok resp, w') ->
     size (db w') = S (size (db w))
     /\ db w !! EncryptResponse.token resp = None
     /\ is_Some (db w' !! EncryptResponse.token resp)
     /\ delete (EncryptResponse.token resp) (db w') = db w)
  /\ (forall e w', post_encrypt pan w = (Raise e, w') -> db w' = db w).
Proof.
  destruct (post_encrypt_cases pan w)
    as [(e & He & Hdb & _) | (bs & ct & _ & _ & _ & _ & _ & Hfresh & Hrun)].
  - split.
    + intros resp w' Hok. rewrite Hok in He. discriminate.
    + intros e' w' Hraise. rewrite Hraise in Hdb. exact Hdb.
  - rewrite Hrun. split; [|discriminate].
    intros resp w' [= <- <-]. cbn [EncryptResponse.token db].
    split; [by apply map_size_insert_None|]. split; [exact Hfresh|].
    split; [rewrite lookup_insert_eq; by eexists|].
    rewrite delete_insert_eq. by apply delete_id.
Qed.


End EndpointFacts.

(** ** The codecs the service relies on *)

(** X16. [str.encode("utf-8")] then [bytes.decode("utf-8")]: a string
    encodes exactly when each of its characters is a Unicode scalar value
    (no lone surrogate); the encoding then consists of octets, between one
    and four per character, decodes back to the string, and is the string
    itself when the string is ASCII, as a PAN of ASCII digits is. *)
Theorem utf8_encode_then_decode (s : str) :
  ((exists bs, utf8_encode s = Ok bs) <-> forallb is_scalar_value s = true)
  /\ forall bs,
       utf8_encode s = Ok bs ->
       utf8_decode bs = Ok s
       /\ forallb is_byte bs = true
       /\ len s <= len bs <= 4 * len s
       /\ (forallb (in_range 0 0x7F) s = true -> bs = s).
Proof.
  split.
  - split; [|apply utf8_encode_total].
    intros [bs Hbs]. revert bs Hbs.
    induction s as [|c s IH]; intros bs Hbs; [reflexivity|].
    cbn [utf8_encode forallb] in *.
    destruct (utf8_encode_char c) as [cs|] eqn:Hc; cbn in Hbs; [|discriminate].
    destruct (utf8_encode s) as [rest|] eqn:Hs; cbn in Hbs; [|discriminate].
    destruct (utf8_encode_char_bytes c cs Hc) as (-> & _).
    by rewrite (IH rest eq_refl).
  - intros bs Hbs. split; [by apply utf8_decode_encode|].
    revert bs Hbs. induction s as [|c s IH]; intros bs Hbs.
    + inversion Hbs. by cbn.
    + cbn [utf8_encode forallb] in *.
      destruct (utf8_encode_char c) as [cs|] eqn:Hc; cbn in Hbs; [|discriminate].
      destruct (utf8_encode s) as [rest|] eqn:Hs; cbn in Hbs; [|discriminate].
      inversion Hbs; subst bs; clear Hbs.
      destruct (utf8_encode_char_bytes c cs Hc) as (_ & Hcb & Hcl & Hascii).
      destruct (IH rest eq_refl) as (Hrb & Hrl & Hrascii).
      rewrite forallb_app, Hcb, Hrb. unfold len in *.
      rewrite length_app. cbn [length].
      split; [reflexivity|]. split; [lia|].
      intros Ha. apply andb_true_iff in Ha as [Hca Hsa].
      by rewrite (Hascii Hca), (Hrascii Hsa).
Qed.

Lemma utf8_decode_strict_bounded (n : nat) (bs : bytes) (s : str) :
  (length bs <= n)%nat -> utf8_decode bs = Ok s -> utf8_encode s = Ok bs.
Proof.
  revert bs s. induction n as [|n IH]; intros bs s Hlen H.
  - destruct bs; [by inversion H | cbn in Hlen; lia].
  - destruct bs as [|b0 r0]; [by inversion H|].
    cbn [utf8_decode] in H. cbv zeta in H. cbn [length] in Hlen.
    unfold is_continuation, is_surrogate in H.
    repeat match type of H with
           | context [if ?b then _ else _] => destruct b eqn:?
           | context [match ?l with [] => _ | _ :: _ => _ end] =>
               destruct l; cbn [length] in Hlen
           end; try discriminate;
      repeat match goal with
             | Hb : _ && _ = true |- _ => apply andb_true_iff in Hb as [? ?]
             | Hb : negb _ = true |- _ => apply negb_true_iff in Hb
             end;
      range_hyps;
      match type of H with
      | result_map _ (utf8_decode ?r) = _ =>
          destruct (utf8_decode r) as [s'|] eqn:Hr; cbn in H; [|discriminate];
          inversion H; subst s; clear H;
          cbn [utf8_encode]; rewrite (IH r s') by (try exact Hr; lia);
          unfold utf8_encode_char, is_surrogate
      end;
      range_goal; cbn [result_bind app]; do 2 f_equal;
      repeat (f_equal; try divmod_lia).
Qed.

(** X17. [bytes.decode("utf-8")] is strict: whenever it accepts a byte
    string, encoding the result gives back that very byte string, so no
    two byte strings decode to the same text and no overlong or surrogate
    form is accepted; and when it refuses, the exception is
    [UnicodeDecodeError]. *)
Theorem utf8_decode_then_encode (bs : bytes) :
  (forall s, utf8_decode bs = Ok s ->
             utf8_encode s = Ok bs /\ forallb is_scalar_value s = true)
  /\ (forall e, utf8_decode bs = Raise e -> e = UnicodeDecodeError).
Proof.
  split; [|intros e; apply utf8_decode_raises].
  intros s Hs.
  pose proof (utf8_decode_strict_bounded (length bs) bs s (Nat.le_refl _) Hs)
    as Henc.
  split; [exact Henc|].
  clear Hs. revert bs Henc.
  induction s as [|c s IH]; intros bs Hbs; [reflexivity|].
  cbn [utf8_encode forallb] in *.
  destruct (utf8_encode_char c) as [cs|] eqn:Hc; cbn in Hbs; [|discriminate].
  destruct (utf8_encode s) as [rest|] eqn:Hs; cbn in Hbs; [|discriminate].
  destruct (utf8_encode_char_bytes c cs Hc) as (-> & _).
  by rewrite (IH rest eq_refl).
Qed.

Lemma list_ind2 {A} (P : list A -> Prop) :
  P [] -> (forall a, P [a]) -> (forall a b l, P l -> P (a :: b :: l)) ->
  forall l, P l.
Proof.
  intros H0 H1 H2 l.
  assert (H : P l /\ forall a, P (a :: l)).
  { induction l as [|x l [IH0 IH1]]; [by auto|]. split; [apply IH1|].
    intros a. by apply H2. }
  apply H.
Qed.

Lemma hex_digit_value_range (c h : Z) :
  hex_digit_value c = Some h -> 0 <= h <= 15 /\ 0 <= c <= 0x7F.
Proof.
  unfold hex_digit_value.
  repeat match goal with
         | |- context [if ?b then _ else _] => destruct b eqn:?
         end; intros [= <-]; range_hyps; lia.
Qed.

Lemma unhexlify_pairs_ok (s : str) (bs : bytes) :
  unhexlify_pairs s = Ok bs ->
  forallb is_hex_digit s = true
  /\ length s = (2 * length bs)%nat
  /\ forallb is_byte bs = true.
Proof.
  revert bs. induction s as [|a|a b s IH] using list_ind2; intros bs H.
  - by inversion H.
  - discriminate.
  - cbn [unhexlify_pairs] in H. cbn [forallb]. unfold is_hex_digit at 1 2.
    destruct (hex_digit_value a) as [h|] eqn:Ha; [|discriminate].
    destruct (hex_digit_value b) as [l|] eqn:Hb; [|discriminate].
    destruct (unhexlify_pairs s) as [rest|] eqn:Hs; [|discriminate].
    cbn in H. inversion H; subst bs; clear H.
    destruct (IH rest eq_refl) as (Hhex & Hlen & Hbytes).
    apply hex_digit_value_range in Ha, Hb.
    cbn [forallb length andb]. unfold is_byte at 1.
    rewrite (proj2 (in_range_true 0 255 _)) by lia.
    rewrite Hhex, Hbytes, Hlen. repeat split. lia.
Qed.

Lemma unhexlify_pairs_total (s : str) :
  forallb is_hex_digit s = true -> Nat.even (length s) = true ->
  exists bs, unhexlify_pairs s = Ok bs.
Proof.
  induction s as [|a|a b s IH] using list_ind2; intros Hhex Heven.
  - by eexists.
  - discriminate.
  - cbn [forallb] in Hhex.
    apply andb_true_iff in Hhex as [Ha Hhex].
    apply andb_true_iff in Hhex as [Hb Hhex].
    unfold is_hex_digit in Ha, Hb. cbn [unhexlify_pairs].
    destruct (hex_digit_value a); [|discriminate].
    destruct (hex_digit_value b); [|discriminate].
    destruct (IH Hhex Heven) as [rest ->]. by eexists.
Qed.

Lemma hex_digits_ascii (s : str) :
  forallb is_hex_digit s = true -> forallb (in_range 0 0x7F) s = true.
Proof.
  intros H. apply forallb_forall. intros c Hc.
  pose proof (proj1 (forallb_forall _ _) H c Hc) as Hh.
  unfold is_hex_digit in Hh.
  destruct (hex_digit_value c) as [h|] eqn:Hv; [|discriminate].
  apply in_range_true. by apply hex_digit_value_range in Hv as [_ ?].
Qed.

(** X18. What [MASTER_KEY_HEX] has to be for the module to load: the key is
    accepted exactly when the variable holds 32, 48 or 64 characters, all
    of them hexadecimal digits (either case); the key then has half as many
    bytes, all octets. A missing or empty variable, an odd number of
    characters, a character that is not a hexadecimal digit or any other
    length stops the process. *)
Theorem load_master_key_accepts (MASTER_KEY_HEX : option str) :
  ((exists key, load_master_key MASTER_KEY_HEX = Ok key)
   <-> exists hex, MASTER_KEY_HEX = Some hex
                   /\ forallb is_hex_digit hex = true
                   /\ (len hex = 32 \/ len hex = 48 \/ len hex = 64))
  /\ forall hex key,
       MASTER_KEY_HEX = Some hex ->
       load_master_key MASTER_KEY_HEX = Ok key ->
       len hex = 2 * len key /\ forallb is_byte key = true.
Proof.
  assert (Hload : forall hex key,
             load_master_key (Some hex) = Ok key ->
             unhexlify_pairs hex = Ok key /\ valid_key_length key = true).
  { intros hex key. unfold load_master_key, unhexlify.
    destruct hex as [|c hex]; [discriminate|].
    destruct (negb (forallb (in_range 0 127) (c :: hex))); [discriminate|].
    destruct (Nat.odd (length (c :: hex))); [discriminate|].
    destruct (unhexlify_pairs (c :: hex)) as [k|e];
      [|by destruct (is_Exception e)].
    destruct (valid_key_length k) eqn:Hv; cbn [negb]; [|discriminate].
    by intros [= <-]. }
  split; [split|].
  - intros [key Hkey]. destruct MASTER_KEY_HEX as [hex|]; [|discriminate].
    exists hex. split; [reflexivity|].
    destruct (Hload hex key Hkey) as [Hpairs Hvalid].
    destruct (unhexlify_pairs_ok hex key Hpairs) as (Hhex & Hlen & _).
    split; [exact Hhex|].
    apply valid_key_length_spec in Hvalid. unfold len in *. lia.
  - intros (hex & -> & Hhex & Hlen).
    assert (Heven : Nat.even (length hex) = true).
    { unfold len in Hlen. apply Nat.even_spec.
      destruct Hlen as [H|[H|H]];
        [exists 16%nat | exists 24%nat | exists 32%nat]; lia. }
    destruct (unhexlify_pairs_total hex Hhex Heven) as [key Hkey].
    destruct (unhexlify_pairs_ok hex key Hkey) as (_ & Hlen2 & _).
    exists key. unfold load_master_key, unhexlify.
    destruct hex as [|c hex]; [unfold len in Hlen; cbn in Hlen; lia|].
    rewrite (hex_digits_ascii _ Hhex). cbn [negb].
    rewrite <- Nat.negb_even, Heven. cbn [negb]. rewrite Hkey.
    replace (valid_key_length key) with true; [reflexivity|].
    symmetry. apply valid_key_length_spec. unfold len in *. lia.
  - intros hex key -> Hkey.
    destruct (Hload hex key Hkey) as [Hpairs _].
    destruct (unhexlify_pairs_ok hex key Hpairs) as (_ & Hlen & Hbytes).
    split; [unfold len; lia | exact Hbytes].
Qed.

Lemma b64_char_inj (i j : Z) :
  0 <= i <= 63 -> 0 <= j <= 63 -> b64_char i = b64_char j -> i = j.
Proof.
  unfold b64_char. intros Hi Hj.
  repeat match goal with
         | |- context [if ?b then _ else _] => destruct b eqn:?
         end;
    repeat match goal with
           | H : (_ <? _) = true |- _ => apply Z.ltb_lt in H
           | H : (_ <? _) = false |- _ => apply Z.ltb_ge in H
           | H : (_ =? _) = true |- _ => apply Z.eqb_eq in H
           | H : (_ =? _) = false |- _ => apply Z.eqb_neq in H
           end; lia.
Qed.

(** X19. [token_urlsafe] loses nothing of the bytes it is given: two byte
    strings of the same length with the same encoding are equal. Two
    requests therefore get the same token only if the random source gave
    them the same twenty-four bytes. *)
Theorem urlsafe_b64encode_nopad_inj (bs1 bs2 : bytes) :
  forallb is_byte bs1 = true ->
  forallb is_byte bs2 = true ->
  length bs1 = length bs2 ->
  urlsafe_b64encode_nopad bs1 = urlsafe_b64encode_nopad bs2 ->
  bs1 = bs2.
Proof.
  unfold is_byte. revert bs2.
  induction bs1 as [|a|a b|a b c l IH] using list_ind3;
    intros bs2 H1 H2 Hlen Henc.
  - by destruct bs2.
  - destruct bs2 as [|a' [|]]; try discriminate.
    cbn [forallb] in *. cbn [urlsafe_b64encode_nopad] in Henc.
    repeat match goal with
           | H : _ && _ = true |- _ => apply andb_true_iff in H as [? ?]
           end; range_hyps.
    injection Henc as E1 E2.
    apply b64_char_inj in E1, E2; try divmod_lia.
    f_equal. divmod_lia.
  - destruct bs2 as [|a' [|b' [|]]]; try discriminate.
    cbn [forallb] in *. cbn [urlsafe_b64encode_nopad] in Henc.
    repeat match goal with
           | H : _ && _ = true |- _ => apply andb_true_iff in H as [? ?]
           end; range_hyps.
    injection Henc as E1 E2 E3.
    apply b64_char_inj in E1, E2, E3; try divmod_lia.
    repeat f_equal; divmod_lia.
  - destruct bs2 as [|a' [|b' [|c' l']]]; try discriminate.
    cbn [forallb] in H1, H2. cbn [urlsafe_b64encode_nopad] in Henc.
    cbn [length] in Hlen.
    repeat match goal with
           | H : _ && _ = true |- _ => apply andb_true_iff in H as [? ?]
           end; range_hyps.
    injection Henc as E1 E2 E3 E4 Erest.
    apply b64_char_inj in E1, E2, E3, E4; try divmod_lia.
    rewrite (IH l') by (assumption || lia).
    repeat f_equal; divmod_lia.
Qed.


(** X20. What [mask_pan] returns when the count of asterisks,
    [length - len first6 - len last4], is not positive or fits a machine
    index. Below the least machine index, [-2^63], the multiplication
    raises [OverflowError]. From there up to the greatest, [2^63 - 1], the
    result has the larger of the requested length and the two kept parts
    together as its length: it is never shorter than asked, never drops a
    character of either part, and carries [max 0 count] asterisks beside
    those the parts hold. *)
Theorem mask_pan_length (first6 last4 : str) (length : Z) :
  (length - len first6 - len last4 < - 2 ^ 63 ->
   mask_pan first6 last4 length = Raise OverflowError)
  /\ (- 2 ^ 63 <= length - len first6 - len last4 <= 2 ^ 63 - 1 ->
      exists masked,
        mask_pan first6 last4 length = Ok masked
        /\ len masked = Z.max length (len first6 + len last4)
        /\ count_occ Z.eq_dec masked star
           = (count_occ Z.eq_dec first6 star
              + Z.to_nat (length - len first6 - len last4)
              + count_occ Z.eq_dec last4 star)%nat).
Proof.
  split.
  - intros Hlow. unfold mask_pan. cbv zeta.
    by rewrite (proj2 (Z.ltb_lt _ _) Hlow).
  - intros [Hfit _]. eexists. split; [by apply mask_pan_ok|]. split.
    + rewrite !len_app, len_repeat. pose proof (len_nonneg first6).
      pose proof (len_nonneg last4). lia.
    + rewrite !count_occ_app. rewrite count_occ_repeat_eq by reflexivity.
      lia.
Qed.

(** ** The further properties on the concrete instance *)

Lemma demo_run1 :
  post_encrypt (aead := demo_aead) (env := demo_env) demo_pan empty_world
  = (Ok demo_resp1, demo_world1).
Proof. apply injective_projections; reflexivity. Qed.

Lemma demo_run2 :
  post_encrypt (aead := demo_aead) (env := demo_env) demo_pan2 demo_world1
  = (Ok demo_resp2, demo_world2).
Proof. apply injective_projections; vm_compute; reflexivity. Qed.

Lemma demo_evolves :
  evolves (aead := demo_aead) (env := demo_env) demo_world1 demo_world3.
Proof.
  apply evolves_get_metadata, evolves_encrypt, evolves_refl.
Qed.

Lemma demo_decrypt3 :
  decrypt (aead := demo_aead) (env := demo_env)
    {| DecryptRequest.token := demo_token |} (Some demo_admin) demo_world3
  = (Ok {| DecryptResponse.pan := demo_pan;
           DecryptResponse.masked_pan := str_of_string "411111******1111" |},
     demo_world3).
Proof. apply injective_projections; reflexivity. Qed.

Lemma demo_decrypt_exn (key nonce data : bytes) (aad : option bytes) (e : exn) :
  aes_decrypt (AEAD := demo_aead) key nonce data aad = Raise e ->
  is_Exception e = true.
Proof.
  cbn [aes_decrypt demo_aead]. unfold demo_decrypt.
  destruct data as [|tag d]; [by intros [= <-]|].
  destruct (tag =? demo_tag key nonce d); [discriminate|by intros [= <-]].
Qed.

Lemma decrypt_requires_admin_key_demo :
  decrypt (aead := demo_aead) (env := demo_env)
    {| DecryptRequest.token := demo_token |}
    (Some (str_of_string "guess")) demo_world1
  = (Raise (HTTPException 401 "Invalid admin API key."), demo_world1)
  /\ decrypt (aead := demo_aead) (env := demo_env)
       {| DecryptRequest.token := demo_token |} None demo_world1
     = (Raise (HTTPException 401 "Invalid admin API key."), demo_world1).
Proof.
  split.
  - apply (decrypt_requires_admin_key (aead := demo_aead) (env := demo_env)).
    discriminate.
  - apply (decrypt_requires_admin_key (aead := demo_aead) (env := demo_env)).
    discriminate.
Defined.

Lemma save_token_then_get_token_record_demo :
  fst (get_token_record demo_token
         (snd (save_token (env := demo_env) demo_token [1; 2] [3; 4] 16
                 (str_of_string "411111") (str_of_string "1111") empty_world)))
  = Ok (Some {| Row.token := demo_token;
                Row.ciphertext := [3; 4];
                Row.nonce := [1; 2];
                Row.pan_length := 16;
                Row.first6 := str_of_string "411111";
                Row.last4 := str_of_string "1111";
                Row.created_at := demo_clock 0 |}).
Proof.
  destruct (proj1 (save_token_then_get_token_record (env := demo_env)
                     demo_token [1; 2] [3; 4] 16 (str_of_string "411111")
                     (str_of_string "1111") empty_world))
    as (_ & Hget & _).
  - reflexivity.
  - vm_compute. split; discriminate.
  - reflexivity.
  - reflexivity.
  - reflexivity.
  - exact Hget.
Defined.

Lemma post_encrypt_keeps_rows_demo :
  db demo_world2 !! demo_token = Some (demo_row demo_pan).
Proof.
  apply (post_encrypt_keeps_rows (aead := demo_aead) (env := demo_env)
           demo_pan2 demo_world1 demo_token).
  reflexivity.
Defined.

Lemma tokens_never_repeat_demo :
  EncryptResponse.token demo_resp1 <> EncryptResponse.token demo_resp2.
Proof.
  exact (tokens_never_repeat (aead := demo_aead) (env := demo_env)
           demo_pan demo_pan2 empty_world demo_world1 demo_world1 demo_world2
           demo_resp1 demo_resp2 demo_run1 (evolves_refl _) demo_run2).
Defined.

Lemma get_metadata_after_encrypt_demo :
  get_metadata demo_token demo_world1
  = (Ok {| TokenMetadata.token := demo_token;
           TokenMetadata.masked_pan := str_of_string "411111******1111";
           TokenMetadata.created_at := demo_clock 0 |}, demo_world1).
Proof.
  exact (get_metadata_after_encrypt (aead := demo_aead) (env := demo_env)
           demo_pan empty_world demo_world1 demo_resp1 demo_run1).
Defined.

Lemma roundtrip_persists_demo :
  decrypt (aead := demo_aead) (env := demo_env)
    {| DecryptRequest.token := demo_token |} (Some demo_admin) demo_world3
  = (Ok {| DecryptResponse.pan := demo_pan;
           DecryptResponse.masked_pan := str_of_string "411111******1111" |},
     demo_world3).
Proof.
  exact (roundtrip_persists (aead := demo_aead) (env := demo_env)
           demo_pan empty_world demo_world1 demo_world3 demo_resp1
           demo_aead_correct demo_run1 demo_evolves).
Defined.

Lemma authorized_decrypt_outcomes_demo :
  (exists resp,
      fst (decrypt (aead := demo_aead) (env := demo_env)
             {| DecryptRequest.token := demo_token |} (Some demo_admin)
             demo_world3) = Ok resp)
  \/ fst (decrypt (aead := demo_aead) (env := demo_env)
            {| DecryptRequest.token := demo_token |} (Some demo_admin)
            demo_world3) = Raise TokenNotFoundError
  \/ fst (decrypt (aead := demo_aead) (env := demo_env)
            {| DecryptRequest.token := demo_token |} (Some demo_admin)
            demo_world3) = Raise DecryptionError.
Proof.
  refine (proj1 (authorized_decrypt_outcomes (aead := demo_aead)
                   (env := demo_env) {| DecryptRequest.token := demo_token |}
                   demo_world3 _ demo_decrypt_exn) eq_refl).
  exists 0%nat, 0%nat.
  apply evolves_get_metadata, evolves_encrypt.
  exact (evolves_encrypt _ _ demo_pan (evolves_refl _)).
Defined.

Lemma masked_pan_positions_demo :
  len (EncryptResponse.masked_pan demo_resp1) = len demo_pan
  /\ EncryptResponse.masked_pan demo_resp1 !! 5%nat = Some 49
  /\ EncryptResponse.masked_pan demo_resp1 !! 6%nat = Some star.
Proof.
  destruct (masked_pan_positions (aead := demo_aead) (env := demo_env)
              demo_pan empty_world demo_world1 demo_resp1 demo_run1)
    as [Hlen Hpos].
  split; [exact Hlen|]. split.
  - exact (Hpos 5%nat ltac:(vm_compute; lia)).
  - exact (Hpos 6%nat ltac:(vm_compute; lia)).
Defined.

Lemma token_is_urlsafe_demo :
  len (EncryptResponse.token demo_resp2) = 32
  /\ forallb is_urlsafe_char (EncryptResponse.token demo_resp2) = true.
Proof.
  exact (token_is_urlsafe (aead := demo_aead) (env := demo_env)
           demo_pan2 demo_world1 demo_world2 demo_resp2
           demo_urandom_octet demo_run2).
Defined.

Lemma stored_rows_well_formed_demo :
  row_ok demo_token (demo_row demo_pan)
  /\ mask_pan (Row.first6 (demo_row demo_pan))
       (Row.last4 (demo_row demo_pan))
       (Row.pan_length (demo_row demo_pan))
     = Ok (str_of_string "411111******1111").
Proof.
  destruct (stored_rows_well_formed (aead := demo_aead) (env := demo_env)
              demo_world3 demo_token (demo_row demo_pan))
    as (Hok & Hlen & _).
  - exists 0%nat, 0%nat.
    apply evolves_get_metadata, evolves_encrypt.
    exact (evolves_encrypt _ _ demo_pan (evolves_refl _)).
  - reflexivity.
  - exact (conj Hok Hlen).
Defined.

Lemma random_bytes_never_reread_demo :
  (urandom_pos empty_world + 36 <= urandom_pos demo_world3)%nat.
Proof.
  exact (proj1 (proj2 (proj2
           (random_bytes_never_reread (aead := demo_aead) (env := demo_env)
              demo_pan empty_world demo_world1 demo_world3 demo_resp1
              demo_run1 demo_evolves)))).
Defined.

Lemma utf8_encode_then_decode_demo :
  utf8_decode [0xD9; 0xA1; 0xE2; 0x82; 0xAC; 0xF0; 0x9F; 0x98; 0x80; 0x34]
  = Ok [0x661; 0x20AC; 0x1F600; 0x34].
Proof.
  destruct (utf8_encode_then_decode [0x661; 0x20AC; 0x1F600; 0x34])
    as [_ Hback].
  exact (proj1 (Hback _ eq_refl)).
Defined.

Lemma utf8_decode_then_encode_demo :
  utf8_encode [0x20AC; 0x34] = Ok [0xE2; 0x82; 0xAC; 0x34]
  /\ forallb is_scalar_value [0x20AC; 0x34] = true.
Proof.
  exact (proj1 (utf8_decode_then_encode [0xE2; 0x82; 0xAC; 0x34])
           [0x20AC; 0x34] eq_refl).
Defined.

Lemma load_master_key_accepts_demo :
  exists key, load_master_key (Some demo_key_hex) = Ok key.
Proof.
  apply (proj1 (load_master_key_accepts (Some demo_key_hex))).
  exists demo_key_hex. split; [reflexivity|]. split; [reflexivity|].
  right. right. reflexivity.
Defined.

Lemma urlsafe_b64encode_nopad_inj_demo :
  map demo_urandom (seq 12 24)
  = [87; 94; 101; 108; 115; 122; 129; 136; 143; 150; 157; 164; 171; 178;
     185; 192; 199; 206; 213; 220; 227; 234; 241; 248].
Proof.
  apply urlsafe_b64encode_nopad_inj; reflexivity.
Defined.

Lemma decrypt_and_metadata_agree_demo :
  exists md,
    get_metadata demo_token demo_world3 = (Ok md, demo_world3)
    /\ TokenMetadata.masked_pan md = str_of_string "411111******1111"
    /\ TokenMetadata.token md = demo_token.
Proof.
  exact (decrypt_and_metadata_agree (aead := demo_aead) (env := demo_env)
           {| DecryptRequest.token := demo_token |} (Some demo_admin)
           demo_world3 demo_world3 _ demo_decrypt3).
Defined.

Lemma invalid_pan_status_demo :
  post_encrypt (aead := demo_aead) (env := demo_env)
    (str_of_string "abcd1234") empty_world
  = (Raise RequestValidationError, empty_world)
  /\ post_encrypt (aead := demo_aead) (env := demo_env)
       (str_of_string "4111-1111-1111") empty_world
     = (Raise (HTTPException 400 "PAN must contain only digits"), empty_world).
Proof.
  split.
  - apply (invalid_pan_status (aead := demo_aead) (env := demo_env)).
    left. vm_compute. intros [H _]. by apply H.
  - apply (invalid_pan_status (aead := demo_aead) (env := demo_env));
      [vm_compute; split; discriminate | reflexivity | reflexivity].
Defined.

Lemma post_encrypt_all_or_nothing_demo :
  size (db demo_world2) = S (size (db demo_world1))
  /\ db collision_world
     = db (snd (post_encrypt (aead := demo_aead) (env := demo_env)
                  demo_pan collision_world)).
Proof.
  destruct (post_encrypt_all_or_nothing (aead := demo_aead) (env := demo_env)
              demo_pan2 demo_world1) as [Hok _].
  destruct (post_encrypt_all_or_nothing (aead := demo_aead) (env := demo_env)
              demo_pan collision_world) as [_ Hfail].
  split.
  - exact (proj1 (Hok demo_resp2 demo_world2 demo_run2)).
  - symmetry. apply (Hfail IntegrityError).
    apply injective_projections; reflexivity.
Defined.

Lemma mask_pan_length_demo :
  mask_pan (str_of_string "411111") (str_of_string "1111") (- 2 ^ 63 - 1)
  = Raise OverflowError
  /\ exists masked,
       mask_pan (str_of_string "411111") (str_of_string "1111") 8 = Ok masked
       /\ len masked = 10
       /\ count_occ Z.eq_dec masked star = 0%nat.
Proof.
  split.
  - apply (proj1 (mask_pan_length (str_of_string "411111")
                    (str_of_string "1111") (- 2 ^ 63 - 1))).
    reflexivity.
  - apply (proj2 (mask_pan_length (str_of_string "411111")
                    (str_of_string "1111") 8)).
    vm_compute. split; discriminate.
Defined.
